(** * Rudi evaluation contexts: documents, variables, function registries

    A shallow embedding of [pkg/eval/types/context.go] and of the
    [datetime] built-ins.  Go pointers and maps are reference types, so
    the embedding threads an explicit store: a [*Document] is an address
    of a document cell, a [Variables] or [Functions] value is either the
    nil map or the address of a map cell.  Every Go function becomes a
    computation in a small state-and-panic monad over that store. *)

From stdpp Require Import gmap strings list fin_maps.

Open Scope string_scope.
Set Warnings "-register-all".

(** ** Values *)

(** Go's [any], restricted to the JSON-shaped values a script handles.
    [nil] is the zero value of the interface type.  A float is kept as
    its IEEE-754 bit pattern; nothing below computes with it. *)
Inductive any : Type :=
  | nil_any
  | Bool (b : bool)
  | Int64 (n : Z)
  | Float64 (bits : Z)
  | Str (s : string)
  | Vector (items : list any)
  | Object (fields : list (string * any)).

(** Go's [error] interface: nil or an error carrying its message. *)
Definition error := option string.
Definition nil_error : error := None.

(** ** The store *)

Definition loc := positive.

(** A pointer or a map reference: [None] is Go's nil. *)
Definition ref := option loc.
Definition nil_ref : ref := None.

(** [type Document struct { data any }] *)
Record Document : Type := mkDocument { data : any }.

(** A Go func value of type [TupleFunction]: nil, or the code of a named
    function of the program. *)
Inductive TupleFunction : Type :=
  | nil_func
  | func (name : string).

(** Values of the interface type [Function]: the nil interface, the
    struct [basicFunc] of context.go, or a value of any other type that
    implements the interface, given by the name of its [Evaluate] code and
    by its description. *)
Inductive Function : Type :=
  | nil_Function
  | basicFunc (f : TupleFunction) (desc : string)
  | otherFunc (impl : string) (desc : string).

(** [type Variables map[string]any] and [type Functions map[string]Function]
    are references to map cells. *)
Definition Variables := ref.
Definition Functions := ref.

Record Heap : Type := mkHeap {
  documents : gmap loc Document;
  varmaps : gmap loc (gmap string any);
  funcmaps : gmap loc (gmap string Function)
}.

Definition empty_heap : Heap := mkHeap ∅ ∅ ∅.

(** Run-time panics of the Go operations used below.  [BadAddress] stands
    for an address that is not allocated; a garbage-collected Go program
    never holds one, and the theorems exclude it by hypothesis. *)
Inductive panic : Type :=
  | NilMapAssignment
  | NilDereference
  | NilFuncCall
  | BadAddress.

Inductive Result (A : Type) : Type :=
  | Ok (a : A) (h : Heap)
  | Panic (p : panic).
Arguments Ok {A} a h.
Arguments Panic {A} p.

Definition M (A : Type) : Type := Heap → Result A.

Definition ret {A} (a : A) : M A := λ h, Ok a h.

Definition bind {A B} (m : M A) (k : A → M B) : M B :=
  λ h, match m h with
       | Ok a h' => k a h'
       | Panic p => Panic p
       end.

Definition raise {A} (p : panic) : M A := λ _, Panic p.

Notation "x <- m ;; k" := (bind m (λ x, k))
  (at level 100, m at next level, right associativity,
   format "'[v' x  <-  m  ;;  '/' k ']'").
Notation "m ;;; k" := (bind m (λ _, k))
  (at level 100, right associativity).

(** [for _, x := range xs { body x }] over a snapshot of the entries. *)
Fixpoint for_each {A} (xs : list A) (body : A → M unit) : M unit :=
  match xs with
  | [] => ret tt
  | x :: rest => body x ;;; for_each rest body
  end.

(** *** Document cells *)

(** A [Document] variable whose address is taken ([&doc], or a call of a
    pointer-receiver method on it) lives in a fresh cell of its own. *)
Definition alloc_Document (d : Document) : M ref :=
  λ h, let l := fresh (dom (documents h)) in
       Ok (Some l) (mkHeap (<[l := d]> (documents h)) (varmaps h) (funcmaps h)).

Definition load_Document (p : ref) : M Document :=
  λ h, match p with
       | None => Panic NilDereference
       | Some l => match documents h !! l with
                   | Some d => Ok d h
                   | None => Panic BadAddress
                   end
       end.

Definition store_Document (p : ref) (d : Document) : M unit :=
  λ h, match p with
       | None => Panic NilDereference
       | Some l => match documents h !! l with
                   | Some _ =>
                       Ok tt (mkHeap (<[l := d]> (documents h)) (varmaps h) (funcmaps h))
                   | None => Panic BadAddress
                   end
       end.

(** *** Map cells *)

(** The comma-ok form of a map index: the entry and true, or the zero
    value and false. *)
Definition lookup_result {V} (zero : V) (c : gmap string V) (name : string) : V * bool :=
  match c !! name with
  | Some v => (v, true)
  | None => (zero, false)
  end.

Section map_cells.
Context {V : Type}.
Variable cells : Heap → gmap loc (gmap string V).
Variable with_cells : gmap loc (gmap string V) → Heap → Heap.

(** [map[string]V{}] *)
Definition make_map : M ref :=
  λ h, let l := fresh (dom (cells h)) in
       Ok (Some l) (with_cells (<[l := ∅]> (cells h)) h).

(** The contents seen by a read: a nil map reads as the empty map. *)
Definition map_contents (m : ref) : M (gmap string V) :=
  λ h, match m with
       | None => Ok ∅ h
       | Some l => match cells h !! l with
                   | Some c => Ok c h
                   | None => Panic BadAddress
                   end
       end.

(** [v, ok := m[name]] with [zero] the zero value of [V]. *)
Definition map_index (zero : V) (m : ref) (name : string) : M (V * bool) :=
  c <- map_contents m ;; ret (lookup_result zero c name).

(** [m[name] = val]: assignment to an entry in a nil map panics. *)
Definition map_assign (m : ref) (name : string) (val : V) : M unit :=
  λ h, match m with
       | None => Panic NilMapAssignment
       | Some l => match cells h !! l with
                   | Some c => Ok tt (with_cells (<[l := <[name := val]> c]> (cells h)) h)
                   | None => Panic BadAddress
                   end
       end.

(** [delete(m, name)]: a no-op on a nil map. *)
Definition map_delete (m : ref) (name : string) : M unit :=
  λ h, match m with
       | None => Ok tt h
       | Some l => match cells h !! l with
                   | Some c => Ok tt (with_cells (<[l := delete name c]> (cells h)) h)
                   | None => Panic BadAddress
                   end
       end.

(** The entries a [range] loop visits. *)
Definition map_range (m : ref) : M (list (string * V)) :=
  c <- map_contents m ;; ret (map_to_list c).
End map_cells.

Definition with_varmaps (c : gmap loc (gmap string any)) (h : Heap) : Heap :=
  mkHeap (documents h) c (funcmaps h).
Definition with_funcmaps (c : gmap loc (gmap string Function)) (h : Heap) : Heap :=
  mkHeap (documents h) (varmaps h) c.

(** ** The coalescing and ast packages *)

(** Modelled from the spec: package [coalescing] is not among the sources.
    The spec names three strictness modes, each produced by a factory;
    [nil_Coalescer] is the nil interface value. *)
Inductive Coalescer : Type :=
  | nil_Coalescer
  | Pedantic
  | Strict
  | Humane.

Definition NewPedantic : Coalescer := Pedantic.
Definition NewStrict : Coalescer := Strict.
Definition NewHumane : Coalescer := Humane.

(** Modelled from the spec: package [ast] is not among the sources.  Only
    the shape of an argument expression is kept; [Shim] is the node that
    [MakeShim] builds. *)
Inductive Expression : Type :=
  | Literal (v : any)
  | Shim (Value : any)
  | DocumentPath (path : list (string + Z))
  | VariablePath (name : string) (path : list (string + Z))
  | Tuple (head : string) (bang : bool) (args : list Expression).

(** ** context.go *)

Definition NewDocument (data : any) : M (Document * error) :=
  ret (mkDocument data, nil_error).

(** [func (d *Document) Data() any] *)
Definition Document_Data (d : ref) : M any :=
  doc <- load_Document d ;; ret (data doc).

(** [func (d *Document) Set(wrappedData any)] *)
Definition Document_Set (d : ref) (wrappedData : any) : M unit :=
  store_Document d (mkDocument wrappedData).

Record Context : Type := mkContext {
  document : ref;
  funcs : Functions;
  variables : Variables;
  coalescer : Coalescer
}.

Definition NewFunctions : M Functions := make_map funcmaps with_funcmaps.

Definition Functions_Get (f : Functions) (name : string) : M (Function * bool) :=
  map_index funcmaps nil_Function f name.

Definition Functions_Set (f : Functions) (name : string) (fun_ : Function) : M Functions :=
  map_assign funcmaps with_funcmaps f name fun_ ;;; ret f.

Definition Functions_Delete (f : Functions) (name : string) : M Functions :=
  map_delete funcmaps with_funcmaps f name ;;; ret f.

Definition Functions_Add (f other : Functions) : M Functions :=
  entries <- map_range funcmaps other ;;
  for_each entries (λ e, map_assign funcmaps with_funcmaps f e.1 e.2) ;;;
  ret f.

Definition Functions_Remove (f other : Functions) : M Functions :=
  entries <- map_range funcmaps other ;;
  for_each entries (λ e, _ <- Functions_Delete f e.1 ;; ret tt) ;;;
  ret f.

Definition Functions_DeepCopy (f : Functions) : M Functions :=
  result <- NewFunctions ;;
  entries <- map_range funcmaps f ;;
  for_each entries (λ e, map_assign funcmaps with_funcmaps result e.1 e.2) ;;;
  ret result.

Definition NewVariables : M Variables := make_map varmaps with_varmaps.

Definition Variables_Get (v : Variables) (name : string) : M (any * bool) :=
  map_index varmaps nil_any v name.

Definition Variables_Set (v : Variables) (name : string) (val : any) : M Variables :=
  map_assign varmaps with_varmaps v name val ;;; ret v.

Definition Variables_DeepCopy (v : Variables) : M Variables :=
  result <- NewVariables ;;
  entries <- map_range varmaps v ;;
  for_each entries (λ e, map_assign varmaps with_varmaps result e.1 e.2) ;;;
  ret result.

Definition Variables_With (v : Variables) (name : string) (val : any) : M Variables :=
  copy <- Variables_DeepCopy v ;; Variables_Set copy name val.

Definition NewContext (doc : Document) (variables : Variables) (funcs : Functions)
    (coalescer : Coalescer) : M Context :=
  funcs <- (if decide (funcs = nil_ref) then NewFunctions else ret funcs) ;;
  variables <- (if decide (variables = nil_ref) then NewVariables else ret variables) ;;
  let coalescer :=
    match coalescer with nil_Coalescer => NewStrict | _ => coalescer end in
  document <- alloc_Document doc ;;
  ret (mkContext document funcs variables coalescer).

Definition Context_Coalesce (c : Context) : Coalescer := coalescer c.

Definition Context_GetDocument (c : Context) : ref := document c.

Definition Context_GetVariable (c : Context) (name : string) : M (any * bool) :=
  Variables_Get (variables c) name.

Definition Context_GetFunction (c : Context) (name : string) : M (Function * bool) :=
  Functions_Get (funcs c) name.

Definition Context_WithVariable (c : Context) (name : string) (val : any) : M Context :=
  variables <- Variables_With (variables c) name val ;;
  ret (mkContext (document c) (funcs c) variables (coalescer c)).

Definition Context_WithCoalescer (c : Context) (coalescer : Coalescer) : Context :=
  mkContext (document c) (funcs c) (variables c) coalescer.

Definition BasicFunction (f : TupleFunction) (description : string) : Function :=
  basicFunc f description.

Definition MakeShim (val : any) : Expression := Shim val.

Definition Function_Description (f : Function) : M string :=
  match f with
  | nil_Function => raise NilDereference
  | basicFunc _ desc => ret desc
  | otherFunc _ desc => ret desc
  end.

(** The code of the program's named functions: what a call through a
    [TupleFunction] value runs. *)
Definition Program := string → Context → list Expression → M (any * error).

Definition call (prog : Program) (f : TupleFunction) (ctx : Context)
    (args : list Expression) : M (any * error) :=
  match f with
  | nil_func => raise NilFuncCall
  | func name => prog name ctx args
  end.

(** [func (f basicFunc) Evaluate(ctx, args)]; the other implementations of
    the interface are not among the sources and run the program's code for
    them. *)
Definition Function_Evaluate (prog : Program) (f : Function) (ctx : Context)
    (args : list Expression) : M (any * error) :=
  match f with
  | nil_Function => raise NilDereference
  | basicFunc f _ => call prog f ctx args
  | otherFunc impl _ => prog impl ctx args
  end.

(** ** Well-formed references *)

(** A map reference of the program is nil or the address of a cell. *)
Definition valid_map {V} (cells : Heap → gmap loc (gmap string V)) (h : Heap)
    (m : ref) : Prop :=
  match m with
  | None => True
  | Some l => is_Some (cells h !! l)
  end.

(** A document handle that can be dereferenced: not nil. *)
Definition live_Document (h : Heap) (p : ref) : Prop :=
  match p with
  | None => False
  | Some l => is_Some (documents h !! l)
  end.

(** What a map reference denotes in a store. *)
Definition contents {V} (cells : Heap → gmap loc (gmap string V)) (h : Heap)
    (m : ref) : gmap string V :=
  match m with
  | None => ∅
  | Some l => default ∅ (cells h !! l)
  end.

(** A registry binds a name when a lookup reports presence. *)
Definition is_bound (h : Heap) (f : Functions) (n : string) : Prop :=
  ∃ fn, Functions_Get f n h = Ok (fn, true) h.

Definition valid_Context (h : Heap) (c : Context) : Prop :=
  valid_map varmaps h (variables c) ∧ valid_map funcmaps h (funcs c).

(** ** The registry of built-ins *)

(** A map literal [types.Functions{ name: fn, ... }]. *)
Definition Functions_literal (entries : list (string * Function)) : M Functions :=
  f <- NewFunctions ;;
  for_each entries (λ e, map_assign funcmaps with_funcmaps f e.1 e.2) ;;;
  ret f.

(** A chain [f.Add(g1).Add(g2)...]: each [Add] returns the receiver of the
    next. *)
Fixpoint Add_all (f : Functions) (others : list Functions) : M Functions :=
  match others with
  | [] => ret f
  | g :: rest => f' <- Functions_Add f g ;; Add_all f' rest
  end.

(** [builtin.Functions]: the registries of the eleven packages, which are
    not among the sources and come as arguments, added in order to an
    empty literal. *)
Definition builtin_Functions
    (core logic compare math strings lists hashing encoding datetime types coalesce :
       Functions) : M Functions :=
  f <- Functions_literal [] ;;
  Add_all f [core; logic; compare; math; strings; lists; hashing; encoding;
             datetime; types; coalesce].

(** What a chain of additions leaves in the receiver: each registry is
    laid over what was there. *)
Definition overlay (h : Heap) (c : gmap string Function) (others : list Functions) :
    gmap string Function :=
  foldl (λ acc g, contents funcmaps h g ∪ acc) c others.

(** ** The datetime built-ins *)

(** [needle] occurs somewhere in [hay]. *)
Fixpoint mentions (needle hay : string) : bool :=
  String.prefix needle hay ||
  match hay with
  | EmptyString => false
  | String _ rest => mentions needle rest
  end.

(** Go's [time] package as far as [nowFunction] uses it.  A [Time] is an
    instant together with the location it is displayed in; [Now] reads the
    wall clock and yields a time in the host's local zone, and the [UTC]
    method (which [nowFunction] does not call) re-labels a time as UTC. *)
Module time.
Inductive Location : Type := UTC | Local.

Record Time : Type := mkTime { instant : Z; location : Location }.

Definition Now (wall_clock : Z) : Time := mkTime wall_clock Local.

Definition Time_UTC (t : Time) : Time := mkTime (instant t) UTC.
End time.

Module datetime.
Section functions.
(** [Time.Format] belongs to Go's standard library; it is a parameter. *)
Variable Time_Format : time.Time → string → string.

(** Package [functions] (the builder) is not among the sources, and the
    spec leaves its contract open: [built f d] stands for the [Function]
    that [functions.NewBuilder(f).WithDescription(d).Build()] yields. *)
Variable built : string → string → Function.

(** [func nowFunction(format string) (any, error)]; the reading of the
    wall clock that [time.Now()] makes is an input. *)
Definition nowFunction (wall_clock : Z) (format : string) : any * error :=
  (Str (Time_Format (time.Now wall_clock) format), nil_error).

Definition now_description : string :=
  "returns the current date & time (UTC), formatted like a Go date".

Definition Functions : M Functions :=
  Functions_literal [("now", built "nowFunction" now_description)].
End functions.
End datetime.

(** A formatting function that shows the location of a time, and nothing
    else; it tells a local time from its UTC conversion. *)
Definition show_location (t : time.Time) (format : string) : string :=
  match time.location t with
  | time.UTC => "UTC"
  | time.Local => "Local"
  end.

(** ** A sample store *)

(** The document and variables of the README's embedding example, and two
    of the registries of the built-in library that share a name. *)
Definition sample_heap : Heap :=
  mkHeap
    {[1%positive := mkDocument (Object [("foo", Int64 9000)])]}
    {[1%positive := {["myvar" := Int64 42]}]}
    (<[1%positive :=
         <["len" := BasicFunction (func "lenFunction")
                      "returns the length of a string, vector or object"]>
           {["concat" := BasicFunction (func "concatFunction")
                           "concatenate items in a vector using a common glue string"]}]>
       {[2%positive :=
           <["len" := BasicFunction (func "lenFunction")
                        "returns the length of a string, vector or object"]>
             {["range" := BasicFunction (func "rangeFunction")
                            "allows to iterate (loop) over a vector or object"]}]}).

Definition sample_Context : Context :=
  mkContext (Some 1%positive) (Some 1%positive) (Some 1%positive) Strict.

(** ** Compositions of the operations *)

Definition delete_entry {V} (acc : gmap string V) (e : string * V) : gmap string V :=
  delete e.1 acc.

(** One scope-extending step on a context, as the evaluator's callers make
    them. *)
Inductive derivation : Type :=
  | by_WithVariable (name : string) (val : any)
  | by_WithCoalescer (k : Coalescer).

Definition derive_step (c : Context) (s : derivation) : M Context :=
  match s with
  | by_WithVariable name val => Context_WithVariable c name val
  | by_WithCoalescer k => ret (Context_WithCoalescer c k)
  end.

(** [c.With...(..).With...(..)]: each step derives from the result of the
    one before. *)
Fixpoint derive (c : Context) (steps : list derivation) : M Context :=
  match steps with
  | [] => ret c
  | s :: rest => d <- derive_step c s ;; derive d rest
  end.

(** The value the last [WithVariable] step for [name] gave, if any. *)
Fixpoint last_binding (steps : list derivation) (name : string) : option any :=
  match steps with
  | [] => None
  | s :: rest =>
      match last_binding rest name with
      | Some v => Some v
      | None =>
          match s with
          | by_WithVariable n v => if decide (n = name) then Some v else None
          | by_WithCoalescer _ => None
          end
      end
  end.

(** The coalescer the last [WithCoalescer] step gave, or [k]. *)
Fixpoint final_coalescer (k : Coalescer) (steps : list derivation) : Coalescer :=
  match steps with
  | [] => k
  | by_WithCoalescer k' :: rest => final_coalescer k' rest
  | by_WithVariable _ _ :: rest => final_coalescer k rest
  end.

(** The fluent chain [v.Set(n1, x1).Set(n2, x2)...]. *)
Fixpoint Set_all (v : Variables) (entries : list (string * any)) : M Variables :=
  match entries with
  | [] => ret v
  | e :: rest => v' <- Variables_Set v e.1 e.2 ;; Set_all v' rest
  end.

(** The value of the last entry for [name], if any. *)
Fixpoint last_value (entries : list (string * any)) (name : string) : option any :=
  match entries with
  | [] => None
  | e :: rest =>
      match last_value rest name with
      | Some v => Some v
      | None => if decide (e.1 = name) then Some e.2 else None
      end
  end.

(** The store after an operation that rewrites the cell of [f]: [f]
    denotes [c'], every other reference what it did, and nothing but
    function registries changed. *)
Definition rewrites_registry (h h' : Heap) (f : Functions)
    (c' : gmap string Function) : Prop :=
  (∀ g, valid_map funcmaps h g →
     valid_map funcmaps h' g ∧
     contents funcmaps h' g = if decide (g = f) then c' else contents funcmaps h g) ∧
  varmaps h' = varmaps h ∧ documents h' = documents h.

(** ** Running the map operations *)

Definition insert_entry {V} (acc : gmap string V) (e : string * V) : gmap string V :=
  <[e.1 := e.2]> acc.

Lemma lookup_result_insert_eq {V} (zero : V) c name val :
  lookup_result zero (<[name := val]> c) name = (val, true).
Proof. unfold lookup_result. by rewrite lookup_insert_eq. Qed.

Lemma lookup_result_insert_ne {V} (zero : V) c name val m :
  m ≠ name → lookup_result zero (<[name := val]> c) m = lookup_result zero c m.
Proof. intros Hne. unfold lookup_result. by rewrite lookup_insert_ne. Qed.

Lemma foldl_insert_entry {V} (l : list (string * V)) (m : gmap string V) :
  NoDup l.*1 → foldl insert_entry m l = list_to_map l ∪ m.
Proof.
  revert m. induction l as [|[k v] l IH]; intros m Hnd; simpl.
  - by rewrite (left_id_L ∅ (∪)).
  - apply NoDup_cons in Hnd as [Hk Hnd].
    rewrite IH by done. unfold insert_entry; simpl.
    rewrite <- insert_union_l. rewrite <- insert_union_r; [done|].
    by apply not_elem_of_list_to_map_1.
Qed.

Lemma foldl_insert_map_to_list {V} (c m : gmap string V) :
  foldl insert_entry m (map_to_list c) = c ∪ m.
Proof.
  rewrite foldl_insert_entry by apply NoDup_fst_map_to_list.
  by rewrite list_to_map_to_list.
Qed.

Section map_cells_run.
Context {V : Type}.
Variable cells : Heap → gmap loc (gmap string V).
Variable with_cells : gmap loc (gmap string V) → Heap → Heap.
Hypothesis cells_with : ∀ c h, cells (with_cells c h) = c.
Hypothesis with_with : ∀ c c' h, with_cells c (with_cells c' h) = with_cells c h.
Hypothesis with_cells_id : ∀ h, with_cells (cells h) h = h.

Lemma map_contents_run h m :
  valid_map cells h m → map_contents cells m h = Ok (contents cells h m) h.
Proof.
  destruct m as [l|]; simpl; [|done].
  intros [c Hc]. by rewrite Hc.
Qed.

Lemma map_index_run zero h m name :
  valid_map cells h m →
  map_index cells zero m name h = Ok (lookup_result zero (contents cells h m) name) h.
Proof.
  intros Hm. unfold map_index, bind. by rewrite map_contents_run.
Qed.

Lemma map_assign_run h l c name val :
  cells h !! l = Some c →
  map_assign cells with_cells (Some l) name val h =
    Ok tt (with_cells (<[l := <[name := val]> c]> (cells h)) h).
Proof. intros Hc. unfold map_assign. by rewrite Hc. Qed.

Lemma for_each_assign_run entries h l c :
  cells h !! l = Some c →
  for_each entries (λ e, map_assign cells with_cells (Some l) e.1 e.2) h =
    Ok tt (with_cells (<[l := foldl insert_entry c entries]> (cells h)) h).
Proof.
  revert h c. induction entries as [|e entries IH]; intros h c Hc; simpl.
  - unfold ret. by rewrite insert_id, with_cells_id.
  - unfold bind. rewrite (map_assign_run h l c) by done.
    rewrite (IH _ (<[e.1 := e.2]> c)).
    + by rewrite cells_with, insert_insert_eq, with_with.
    + by rewrite cells_with, lookup_insert_eq.
Qed.

Lemma map_assign_index_run zero h l c name val :
  cells h !! l = Some c →
  ∃ h', map_assign cells with_cells (Some l) name val h = Ok tt h' ∧
    ∀ m, map_index cells zero (Some l) m h' =
           Ok (lookup_result zero (<[name := val]> c) m) h'.
Proof.
  intros Hc. eexists. split; [by apply map_assign_run|].
  intros m. rewrite map_index_run by (simpl; rewrite cells_with, lookup_insert_eq; eauto).
  simpl. by rewrite cells_with, lookup_insert_eq.
Qed.

(** [range] visits the entries of a map in an unspecified order; the
    outcome of an assignment loop does not depend on it. *)
Lemma for_each_assign_any_order entries (c' : gmap string V) h l c :
  cells h !! l = Some c →
  entries ≡ₚ map_to_list c' →
  for_each entries (λ e, map_assign cells with_cells (Some l) e.1 e.2) h =
    Ok tt (with_cells (<[l := c' ∪ c]> (cells h)) h).
Proof.
  intros Hc Hperm. rewrite (for_each_assign_run _ h l c) by done.
  assert (Hnd : NoDup entries.*1).
  { rewrite Hperm. apply NoDup_fst_map_to_list. }
  rewrite foldl_insert_entry by done.
  by rewrite (list_to_map_proper _ _ Hnd Hperm), list_to_map_to_list.
Qed.

Lemma fresh_cell h : cells h !! fresh (dom (cells h)) = None.
Proof. apply not_elem_of_dom, is_fresh. Qed.

Lemma contents_alloc h m c :
  valid_map cells h m →
  contents cells (with_cells (<[fresh (dom (cells h)) := c]> (cells h)) h) m =
    contents cells h m.
Proof.
  destruct m as [l|]; simpl; [|done].
  intros [c' Hc]. rewrite cells_with, lookup_insert_ne; [done|].
  intros <-. by rewrite fresh_cell in Hc.
Qed.

Lemma valid_map_alloc h m c :
  valid_map cells h m →
  valid_map cells (with_cells (<[fresh (dom (cells h)) := c]> (cells h)) h) m.
Proof.
  destruct m as [l|]; simpl; [|done].
  intros [c' Hc]. rewrite cells_with, lookup_insert_ne; [by eexists|].
  intros <-. by rewrite fresh_cell in Hc.
Qed.

(** A copy loop: a fresh cell receives the entries of [m]. *)
Lemma copy_run h m :
  valid_map cells h m →
  (result <- make_map cells with_cells ;;
   entries <- map_range cells m ;;
   for_each entries (λ e, map_assign cells with_cells result e.1 e.2) ;;;
   ret result) h =
    Ok (Some (fresh (dom (cells h))))
       (with_cells (<[fresh (dom (cells h)) := contents cells h m]> (cells h)) h).
Proof.
  intros Hm. unfold bind at 1. unfold make_map.
  set (l := fresh (dom (cells h))).
  unfold map_range. unfold bind at 1. unfold bind at 1.
  rewrite map_contents_run by by apply valid_map_alloc.
  unfold ret at 1. unfold bind.
  rewrite (for_each_assign_run _ _ l ∅) by by rewrite cells_with, lookup_insert_eq.
  unfold ret. rewrite cells_with, insert_insert_eq, with_with.
  rewrite foldl_insert_map_to_list, (right_id_L ∅ (∪)).
  subst l. by rewrite contents_alloc.
Qed.
End map_cells_run.

(** ** Running the operations of context.go *)

Lemma varmaps_with c h : varmaps (with_varmaps c h) = c.
Proof. done. Qed.
Lemma with_varmaps_with c c' h : with_varmaps c (with_varmaps c' h) = with_varmaps c h.
Proof. done. Qed.
Lemma with_varmaps_id h : with_varmaps (varmaps h) h = h.
Proof. by destruct h. Qed.

Lemma funcmaps_with c h : funcmaps (with_funcmaps c h) = c.
Proof. done. Qed.
Lemma with_funcmaps_with c c' h : with_funcmaps c (with_funcmaps c' h) = with_funcmaps c h.
Proof. done. Qed.
Lemma with_funcmaps_id h : with_funcmaps (funcmaps h) h = h.
Proof. by destruct h. Qed.

Lemma Variables_Get_run h v name :
  valid_map varmaps h v →
  Variables_Get v name h = Ok (lookup_result nil_any (contents varmaps h v) name) h.
Proof. apply map_index_run. Qed.

Lemma Functions_Get_run h f name :
  valid_map funcmaps h f →
  Functions_Get f name h = Ok (lookup_result nil_Function (contents funcmaps h f) name) h.
Proof. apply map_index_run. Qed.

Lemma Variables_Set_run h l c name val :
  varmaps h !! l = Some c →
  Variables_Set (Some l) name val h =
    Ok (Some l) (with_varmaps (<[l := <[name := val]> c]> (varmaps h)) h).
Proof.
  intros Hc. unfold Variables_Set, bind.
  by rewrite (map_assign_run varmaps with_varmaps h l c).
Qed.

Lemma Functions_Set_run h l c name fn :
  funcmaps h !! l = Some c →
  Functions_Set (Some l) name fn h =
    Ok (Some l) (with_funcmaps (<[l := <[name := fn]> c]> (funcmaps h)) h).
Proof.
  intros Hc. unfold Functions_Set, bind.
  by rewrite (map_assign_run funcmaps with_funcmaps h l c).
Qed.

Lemma Variables_Set_Get h l c name val :
  varmaps h !! l = Some c →
  ∃ h', Variables_Set (Some l) name val h = Ok (Some l) h' ∧
    ∀ m, Variables_Get (Some l) m h' = Ok (lookup_result nil_any (<[name := val]> c) m) h'.
Proof.
  intros Hc.
  destruct (map_assign_index_run varmaps with_varmaps varmaps_with nil_any h l c name val Hc)
    as (h' & Hrun & Hget).
  exists h'. split; [|done]. unfold Variables_Set, bind. by rewrite Hrun.
Qed.

Lemma Functions_Set_Get h l c name fn :
  funcmaps h !! l = Some c →
  ∃ h', Functions_Set (Some l) name fn h = Ok (Some l) h' ∧
    ∀ m, Functions_Get (Some l) m h' =
           Ok (lookup_result nil_Function (<[name := fn]> c) m) h'.
Proof.
  intros Hc.
  destruct (map_assign_index_run funcmaps with_funcmaps funcmaps_with nil_Function h l c
              name fn Hc) as (h' & Hrun & Hget).
  exists h'. split; [|done]. unfold Functions_Set, bind. by rewrite Hrun.
Qed.

Lemma Variables_DeepCopy_run h v :
  valid_map varmaps h v →
  Variables_DeepCopy v h =
    Ok (Some (fresh (dom (varmaps h))))
       (with_varmaps (<[fresh (dom (varmaps h)) := contents varmaps h v]> (varmaps h)) h).
Proof.
  apply (copy_run varmaps with_varmaps varmaps_with with_varmaps_with with_varmaps_id).
Qed.

Lemma Functions_DeepCopy_run h f :
  valid_map funcmaps h f →
  Functions_DeepCopy f h =
    Ok (Some (fresh (dom (funcmaps h))))
       (with_funcmaps (<[fresh (dom (funcmaps h)) := contents funcmaps h f]> (funcmaps h)) h).
Proof.
  apply (copy_run funcmaps with_funcmaps funcmaps_with with_funcmaps_with with_funcmaps_id).
Qed.

Lemma Variables_With_run h v name val :
  valid_map varmaps h v →
  Variables_With v name val h =
    Ok (Some (fresh (dom (varmaps h))))
       (with_varmaps
          (<[fresh (dom (varmaps h)) := <[name := val]> (contents varmaps h v)]> (varmaps h)) h).
Proof.
  intros Hv. unfold Variables_With, bind at 1.
  rewrite Variables_DeepCopy_run by done.
  erewrite Variables_Set_run by (by rewrite varmaps_with, lookup_insert_eq).
  by rewrite varmaps_with, insert_insert_eq, with_varmaps_with.
Qed.

Lemma Functions_Add_run h l c other :
  funcmaps h !! l = Some c →
  valid_map funcmaps h other →
  Functions_Add (Some l) other h =
    Ok (Some l) (with_funcmaps (<[l := contents funcmaps h other ∪ c]> (funcmaps h)) h).
Proof.
  intros Hc Ho. unfold Functions_Add, map_range.
  unfold bind at 1. unfold bind at 1.
  rewrite (map_contents_run funcmaps) by done.
  unfold ret at 1. unfold bind.
  rewrite (for_each_assign_run funcmaps with_funcmaps funcmaps_with with_funcmaps_with
             with_funcmaps_id _ h l c) by done.
  by rewrite foldl_insert_map_to_list.
Qed.

Lemma contents_live {V} (cells : Heap → gmap loc (gmap string V)) h l c :
  cells h !! l = Some c → contents cells h (Some l) = c.
Proof. intros Hc. simpl. by rewrite Hc. Qed.

Lemma Document_Data_run h l d :
  documents h !! l = Some d → Document_Data (Some l) h = Ok (data d) h.
Proof. intros Hd. unfold Document_Data, bind, load_Document. by rewrite Hd. Qed.

Lemma Document_Set_run h l d x :
  documents h !! l = Some d →
  Document_Set (Some l) x h =
    Ok tt (mkHeap (<[l := mkDocument x]> (documents h)) (varmaps h) (funcmaps h)).
Proof. intros Hd. unfold Document_Set, store_Document. by rewrite Hd. Qed.


Lemma NewContext_run doc vs fs k h :
  ∃ c h', NewContext doc vs fs k h = Ok c h' ∧
    document c = Some (fresh (dom (documents h))) ∧
    documents h' = <[fresh (dom (documents h)) := doc]> (documents h) ∧
    coalescer c = match k with nil_Coalescer => NewStrict | _ => k end ∧
    (if decide (vs = nil_ref)
     then variables c = Some (fresh (dom (varmaps h))) ∧
          varmaps h' = <[fresh (dom (varmaps h)) := ∅]> (varmaps h)
     else variables c = vs ∧ varmaps h' = varmaps h) ∧
    (if decide (fs = nil_ref)
     then funcs c = Some (fresh (dom (funcmaps h))) ∧
          funcmaps h' = <[fresh (dom (funcmaps h)) := ∅]> (funcmaps h)
     else funcs c = fs ∧ funcmaps h' = funcmaps h).
Proof.
  unfold NewContext, bind, NewFunctions, NewVariables, make_map, alloc_Document, ret.
  destruct (decide (fs = nil_ref)), (decide (vs = nil_ref)); simpl;
    eexists _, _; (split; [reflexivity|]); simpl; done.
Qed.

(** ** The document handle *)

Lemma last_cons {A} (ys : list A) : ∀ y d, List.last (y :: ys) d = List.last ys y.
Proof.
  induction ys as [|z ys IH]; intros y d; [done|].
  change (List.last (z :: ys) d = List.last (z :: ys) y). by rewrite !IH.
Qed.

Lemma Document_Set_each_run ys : ∀ h l d,
  documents h !! l = Some d →
  ∃ h', for_each ys (Document_Set (Some l)) h = Ok tt h' ∧
    documents h' !! l = Some (mkDocument (List.last ys (data d))) ∧
    ∀ l', l' ≠ l → documents h' !! l' = documents h !! l'.
Proof.
  induction ys as [|y ys IH]; intros h l d Hd; cbn [for_each].
  - exists h. by destruct d.
  - unfold bind. rewrite (Document_Set_run h l d) by done.
    edestruct (IH (mkHeap (<[l := mkDocument y]> (documents h)) (varmaps h) (funcmaps h))
                 l (mkDocument y)) as (h' & Hrun & Hl & Hother).
    { simpl. apply lookup_insert_eq. }
    exists h'. split; [done|]. split.
    + by rewrite Hl, last_cons.
    + intros l' Hne. rewrite Hother by done. simpl. by rewrite lookup_insert_ne.
Qed.

(** C6: [NewDocument x] never fails and returns, with a nil error, a
    document whose [Data()] is [x]; after any sequence of [Set] calls on
    that document, [Data()] is the root set last, whatever its variant
    (nil included). *)
Theorem NewDocument_Data_Set (h : Heap) (x : any) (ys : list any) :
  ∃ d h1 h2,
    (r <- NewDocument x ;; d <- alloc_Document r.1 ;; ret (d, r.2)) h
      = Ok (d, nil_error) h1 ∧
    Document_Data d h1 = Ok x h1 ∧
    for_each ys (Document_Set d) h1 = Ok tt h2 ∧
    Document_Data d h2 = Ok (List.last ys x) h2.
Proof.
  set (l := fresh (dom (documents h))).
  set (h1 := mkHeap (<[l := mkDocument x]> (documents h)) (varmaps h) (funcmaps h)).
  assert (Hl : documents h1 !! l = Some (mkDocument x)) by apply lookup_insert_eq.
  destruct (Document_Set_each_run ys h1 l _ Hl) as (h2 & Hrun & Hl2 & _).
  exists (Some l), h1, h2. repeat split.
  - by apply (Document_Data_run h1 l (mkDocument x)).
  - done.
  - by rewrite (Document_Data_run h2 l _ Hl2).
Qed.

(** ** Defaults of NewContext *)

(** C5: whatever the document, variables and functions, a context made
    with a nil coalescer coalesces with the strict coalescer, the one the
    strict factory produces; any other coalescer is kept as given. *)
Theorem NewContext_nil_coalescer_is_strict (h : Heap) (d : Document)
    (vs : Variables) (fs : Functions) :
  (∃ c h', NewContext d vs fs nil_Coalescer h = Ok c h' ∧
     Context_Coalesce c = NewStrict) ∧
  (∀ k, ∃ c h', NewContext d vs fs k h = Ok c h' ∧
     Context_Coalesce c = match k with nil_Coalescer => NewStrict | _ => k end).
Proof.
  split.
  - destruct (NewContext_run d vs fs nil_Coalescer h) as (c & h' & Hrun & _ & _ & Hk & _).
    by exists c, h'.
  - intros k.
    destruct (NewContext_run d vs fs k h) as (c & h' & Hrun & _ & _ & Hc & _).
    by exists c, h'.
Qed.

(** C9: a context made with nil variable and function sets has fresh
    empty sets: every variable and function lookup returns the zero value
    and false without failing, and entries can then be registered on the
    defaulted sets and are found again. *)
Theorem NewContext_nil_sets (h : Heap) (d : Document) (k : Coalescer) :
  ∃ c h', NewContext d nil_ref nil_ref k h = Ok c h' ∧
    (∀ n, Context_GetVariable c n h' = Ok (nil_any, false) h') ∧
    (∀ n, Context_GetFunction c n h' = Ok (nil_Function, false) h') ∧
    (∀ n v, ∃ h'', Variables_Set (variables c) n v h' = Ok (variables c) h'' ∧
       Context_GetVariable c n h'' = Ok (v, true) h'' ∧
       ∀ m, m ≠ n → Context_GetVariable c m h'' = Ok (nil_any, false) h'') ∧
    (∀ n f, ∃ h'', Functions_Set (funcs c) n f h' = Ok (funcs c) h'' ∧
       Context_GetFunction c n h'' = Ok (f, true) h'' ∧
       ∀ m, m ≠ n → Context_GetFunction c m h'' = Ok (nil_Function, false) h'').
Proof.
  destruct (NewContext_run d nil_ref nil_ref k h)
    as (c & h' & Hrun & _ & _ & _ & Hvs & Hfs).
  rewrite decide_True in Hvs by done. rewrite decide_True in Hfs by done.
  destruct Hvs as [Hv Hvm], Hfs as [Hf Hfm].
  set (lv := fresh (dom (varmaps h))) in *. set (lf := fresh (dom (funcmaps h))) in *.
  assert (Hlv : varmaps h' !! lv = Some ∅) by (rewrite Hvm; apply lookup_insert_eq).
  assert (Hlf : funcmaps h' !! lf = Some ∅) by (rewrite Hfm; apply lookup_insert_eq).
  exists c, h'. split; [done|]. unfold Context_GetVariable, Context_GetFunction.
  rewrite Hv, Hf. repeat split.
  - intros n. rewrite Variables_Get_run by (simpl; eauto).
    by rewrite (contents_live varmaps h' lv ∅).
  - intros n. rewrite Functions_Get_run by (simpl; eauto).
    by rewrite (contents_live funcmaps h' lf ∅).
  - intros n v. destruct (Variables_Set_Get h' lv ∅ n v Hlv) as (h'' & Hset & Hget).
    exists h''. split; [done|]. rewrite !Hget. split.
    + by rewrite lookup_result_insert_eq.
    + intros m Hne. by rewrite Hget, lookup_result_insert_ne.
  - intros n f. destruct (Functions_Set_Get h' lf ∅ n f Hlf) as (h'' & Hset & Hget).
    exists h''. split; [done|]. rewrite !Hget. split.
    + by rewrite lookup_result_insert_eq.
    + intros m Hne. by rewrite Hget, lookup_result_insert_ne.
Qed.

(** ** BasicFunction *)

(** C7: the function built by [BasicFunction f s] evaluates to exactly
    what calling [f] on the same context and the same unevaluated
    arguments gives (value, error, and effect on the store), and its
    description is [s]. *)
Theorem BasicFunction_faithful (prog : Program) (f : TupleFunction) (s : string)
    (ctx : Context) (args : list Expression) (h : Heap) :
  Function_Evaluate prog (BasicFunction f s) ctx args h = call prog f ctx args h ∧
  Function_Description (BasicFunction f s) h = Ok s h.
Proof. split; reflexivity. Qed.

(** ** Copy-on-extend variables *)

Section extend_store.
Context {V : Type} (cells : Heap → gmap loc (gmap string V)).
Variables (h h' : Heap) (l : loc) (c : gmap string V).
Hypothesis Hfresh : cells h !! l = None.
Hypothesis Hext : cells h' = <[l := c]> (cells h).

Lemma valid_map_extend m : valid_map cells h m → valid_map cells h' m.
Proof.
  destruct m as [l'|]; simpl; [|done]. intros [c' Hc]. rewrite Hext.
  rewrite lookup_insert_ne; [by eexists|]. intros <-. congruence.
Qed.

Lemma contents_extend m : valid_map cells h m → contents cells h' m = contents cells h m.
Proof.
  destruct m as [l'|]; simpl; [|done]. intros [c' Hc]. rewrite Hext.
  rewrite lookup_insert_ne; [done|]. intros <-. congruence.
Qed.

Lemma contents_extend_new : contents cells h' (Some l) = c.
Proof. simpl. by rewrite Hext, lookup_insert_eq. Qed.

Lemma valid_map_extend_new : valid_map cells h' (Some l).
Proof. simpl. rewrite Hext, lookup_insert_eq. by eexists. Qed.
End extend_store.

Lemma valid_map_same {V} (cells : Heap → gmap loc (gmap string V)) h h' m :
  cells h' = cells h → valid_map cells h m → valid_map cells h' m.
Proof. intros Heq. destruct m; simpl; by rewrite ?Heq. Qed.

Lemma contents_same {V} (cells : Heap → gmap loc (gmap string V)) h h' m :
  cells h' = cells h → contents cells h' m = contents cells h m.
Proof. intros Heq. destruct m; simpl; by rewrite ?Heq. Qed.

Lemma Variables_With_spec h v name val :
  valid_map varmaps h v →
  ∃ l h', Variables_With v name val h = Ok (Some l) h' ∧
    varmaps h !! l = None ∧
    varmaps h' = <[l := <[name := val]> (contents varmaps h v)]> (varmaps h) ∧
    documents h' = documents h ∧
    funcmaps h' = funcmaps h.
Proof.
  intros Hv. eexists _, _. split; [by apply Variables_With_run|].
  split; [apply (fresh_cell varmaps)|]. done.
Qed.

(** C3 (as amended): [With] never mutates its receiver, nil or not: the
    returned set binds [n] to [x], agrees with [v] on every other name, and
    every lookup on [v] gives afterwards what it gave before.  [Set] on a
    non-nil [v] succeeds, returns [v] itself, and [v] then binds [n] to
    [x]. *)
Theorem Variables_With_copies_Set_mutates (h : Heap) (v : Variables) (n : string)
    (x : any) :
  valid_map varmaps h v →
  (∃ w h', Variables_With v n x h = Ok w h' ∧
     Variables_Get w n h' = Ok (x, true) h' ∧
     (∀ m, m ≠ n →
        ∃ r, Variables_Get w m h' = Ok r h' ∧ Variables_Get v m h = Ok r h) ∧
     (∀ m, ∃ r, Variables_Get v m h' = Ok r h' ∧ Variables_Get v m h = Ok r h)) ∧
  (v ≠ nil_ref →
     ∃ h', Variables_Set v n x h = Ok v h' ∧
       Variables_Get v n h' = Ok (x, true) h').
Proof.
  intros Hv. split.
  - destruct (Variables_With_spec h v n x Hv) as (l & h' & Hrun & Hl & Hvm & _).
    exists (Some l), h'. split; [done|].
    pose proof (valid_map_extend_new varmaps h h' l _ Hvm) as Hw.
    pose proof (contents_extend_new varmaps h h' l _ Hvm) as Hcw.
    pose proof (valid_map_extend varmaps h h' l _ Hl Hvm v Hv) as Hv'.
    pose proof (contents_extend varmaps h h' l _ Hl Hvm v Hv) as Hcv.
    repeat split.
    + rewrite Variables_Get_run, Hcw by done. by rewrite lookup_result_insert_eq.
    + intros m Hne. eexists. rewrite !Variables_Get_run, Hcw by done.
      by rewrite lookup_result_insert_ne.
    + intros m. eexists. by rewrite !Variables_Get_run, Hcv.
  - intros Hnil. destruct v as [l|]; [|done]. destruct Hv as [c Hc].
    destruct (Variables_Set_Get h l c n x Hc) as (h' & Hset & Hget).
    exists h'. split; [done|]. by rewrite Hget, lookup_result_insert_eq.
Qed.

(** Assignment through the nil variable set panics, whatever the store. *)
Lemma Variables_Set_nil h n x : Variables_Set nil_ref n x h = Panic NilMapAssignment.
Proof. reflexivity. Qed.

(** C3 (as stated) fails on the nil variable set: [Set] panics on the
    assignment, and the set still does not bind the name. *)
Lemma Variables_Set_nil_panics :
  Variables_Set nil_ref "a" (Int64 1) empty_heap = Panic NilMapAssignment ∧
  Variables_Get nil_ref "a" empty_heap = Ok (nil_any, false) empty_heap.
Proof. split; reflexivity. Qed.

(** ** Derived contexts *)

(** C2: [WithVariable] returns a context that binds [n] to [v], agrees
    with [c] on every other variable, on every function and on the
    coalescer, and leaves every lookup through [c] as it was;
    [WithCoalescer] changes the coalescer to [k] and nothing else, and
    does not touch the store at all. *)
Theorem Context_derivation_frame (h : Heap) (c : Context) (n : string) (v : any)
    (k : Coalescer) :
  valid_Context h c →
  (∃ d h', Context_WithVariable c n v h = Ok d h' ∧
     Context_GetVariable d n h' = Ok (v, true) h' ∧
     (∀ m, m ≠ n →
        ∃ r, Context_GetVariable d m h' = Ok r h' ∧ Context_GetVariable c m h = Ok r h) ∧
     (∀ m, ∃ r, Context_GetFunction d m h' = Ok r h' ∧ Context_GetFunction c m h = Ok r h) ∧
     Context_Coalesce d = Context_Coalesce c ∧
     (∀ m, ∃ r, Context_GetVariable c m h' = Ok r h' ∧ Context_GetVariable c m h = Ok r h) ∧
     (∀ m, ∃ r, Context_GetFunction c m h' = Ok r h' ∧ Context_GetFunction c m h = Ok r h)) ∧
  (Context_Coalesce (Context_WithCoalescer c k) = k ∧
   (∀ m, ∃ r, Context_GetVariable (Context_WithCoalescer c k) m h = Ok r h ∧
      Context_GetVariable c m h = Ok r h) ∧
   (∀ m, ∃ r, Context_GetFunction (Context_WithCoalescer c k) m h = Ok r h ∧
      Context_GetFunction c m h = Ok r h)).
Proof.
  intros [Hv Hf]. unfold Context_GetVariable, Context_GetFunction. split.
  - destruct (Variables_With_spec h _ n v Hv) as (l & h' & Hrun & Hl & Hvm & _ & Hfm).
    exists (mkContext (document c) (funcs c) (Some l) (coalescer c)), h'.
    split; [by unfold Context_WithVariable, bind; rewrite Hrun|]. simpl.
    pose proof (valid_map_extend_new varmaps h h' l _ Hvm) as Hw.
    pose proof (contents_extend_new varmaps h h' l _ Hvm) as Hcw.
    pose proof (valid_map_extend varmaps h h' l _ Hl Hvm _ Hv) as Hv'.
    pose proof (contents_extend varmaps h h' l _ Hl Hvm _ Hv) as Hcv.
    pose proof (valid_map_same funcmaps h h' _ Hfm Hf) as Hf'.
    pose proof (contents_same funcmaps h h' (funcs c) Hfm) as Hcf.
    repeat split.
    + rewrite Variables_Get_run, Hcw by done. by rewrite lookup_result_insert_eq.
    + intros m Hne. eexists. rewrite !Variables_Get_run, Hcw by done.
      by rewrite lookup_result_insert_ne.
    + intros m. eexists. by rewrite !Functions_Get_run, Hcf.
    + intros m. eexists. by rewrite !Variables_Get_run, Hcv.
    + intros m. eexists. by rewrite !Functions_Get_run, Hcf.
  - simpl. repeat split.
    + intros m. eexists. by rewrite !Variables_Get_run.
    + intros m. eexists. by rewrite !Functions_Get_run.
Qed.

Lemma Document_Set_Data h l x :
  is_Some (documents h !! l) →
  ∃ h', Document_Set (Some l) x h = Ok tt h' ∧
    Document_Data (Some l) h' = Ok x h' ∧
    documents h' = <[l := mkDocument x]> (documents h).
Proof.
  intros [d Hd]. eexists. split; [by apply (Document_Set_run h l d)|].
  split; [|done].
  by rewrite (Document_Data_run _ l (mkDocument x)) by (simpl; apply lookup_insert_eq).
Qed.

(** C1 (as amended): the contexts derived from [c] by [WithVariable] and
    [WithCoalescer] hold the very handle [c] holds; when that handle is
    not nil, a [Set x] through any one of the three succeeds and [Data]
    through any of them then returns [x]. *)
Theorem Context_document_shared (h : Heap) (c : Context) (n : string) (v : any)
    (k : Coalescer) (x : any) :
  valid_map varmaps h (variables c) →
  ∃ d h1, Context_WithVariable c n v h = Ok d h1 ∧
    Context_GetDocument d = Context_GetDocument c ∧
    Context_GetDocument (Context_WithCoalescer c k) = Context_GetDocument c ∧
    (live_Document h (Context_GetDocument c) →
     ∀ p q,
       p ∈ [Context_GetDocument c; Context_GetDocument d;
            Context_GetDocument (Context_WithCoalescer c k)] →
       q ∈ [Context_GetDocument c; Context_GetDocument d;
            Context_GetDocument (Context_WithCoalescer c k)] →
       ∃ h2, Document_Set p x h1 = Ok tt h2 ∧ Document_Data q h2 = Ok x h2).
Proof.
  intros Hv.
  destruct (Variables_With_spec h _ n v Hv) as (l & h1 & Hrun & _ & _ & Hdocs & _).
  exists (mkContext (document c) (funcs c) (Some l) (coalescer c)), h1.
  split; [by unfold Context_WithVariable, bind; rewrite Hrun|].
  split; [done|]. split; [done|].
  unfold Context_GetDocument; simpl. intros Hlive p q Hp Hq.
  assert (Hall : ∀ r, r ∈ [document c; document c; document c] → r = document c).
  { intros r Hr. rewrite !elem_of_cons, elem_of_nil in Hr. tauto. }
  apply Hall in Hp as ->. apply Hall in Hq as ->.
  destruct (document c) as [ld|]; [|done]. simpl in Hlive. rewrite <- Hdocs in Hlive.
  destruct (Document_Set_Data h1 ld x Hlive) as (h2 & HS & HD & _). by exists h2.
Qed.

(** Neither [Set] nor [Data] returns through a nil handle. *)
Lemma Document_nil h x :
  Document_Set nil_ref x h = Panic NilDereference ∧
  Document_Data nil_ref h = Panic NilDereference.
Proof. split; reflexivity. Qed.

(** C1 (as stated) fails on the zero [Context]: its handle is nil, so
    [Set] through a derived context panics and [Data] through the
    original returns nothing. *)
Lemma Context_zero_document_panics :
  Document_Set
    (Context_GetDocument
       (Context_WithCoalescer (mkContext nil_ref nil_ref nil_ref nil_Coalescer) Humane))
    (Int64 1) empty_heap = Panic NilDereference ∧
  Document_Data
    (Context_GetDocument (mkContext nil_ref nil_ref nil_ref nil_Coalescer))
    empty_heap = Panic NilDereference.
Proof. split; reflexivity. Qed.

(** ** Function registries *)

Lemma lookup_result_union {V} (zero : V) (cg cf : gmap string V) n :
  lookup_result zero (cg ∪ cf) n =
    if (lookup_result zero cg n).2 then lookup_result zero cg n
    else lookup_result zero cf n.
Proof.
  unfold lookup_result. rewrite lookup_union.
  by destruct (cg !! n), (cf !! n).
Qed.

Lemma is_bound_lookup h f n :
  valid_map funcmaps h f →
  is_bound h f n ↔ is_Some (contents funcmaps h f !! n).
Proof.
  intros Hf. unfold is_bound. rewrite Functions_Get_run by done.
  unfold lookup_result. destruct (contents funcmaps h f !! n) as [fn|].
  - split; [by eexists|]. intros _. by exists fn.
  - split; [by intros [? [=]]|]. by intros [? [=]].
Qed.

Lemma Functions_Add_nil_run h g :
  valid_map funcmaps h g → contents funcmaps h g = ∅ →
  Functions_Add nil_ref g h = Ok nil_ref h.
Proof.
  intros Hg Hempty. unfold Functions_Add, map_range.
  unfold bind at 1. unfold bind at 1.
  rewrite (map_contents_run funcmaps) by done.
  by rewrite Hempty, map_to_list_empty.
Qed.

(** Adding a registry that has an entry to the nil registry panics,
    whatever the store. *)
Lemma Functions_Add_nil_nonempty h g :
  valid_map funcmaps h g → contents funcmaps h g ≠ ∅ →
  Functions_Add nil_ref g h = Panic NilMapAssignment.
Proof.
  intros Hg Hne. unfold Functions_Add, map_range.
  unfold bind at 1. unfold bind at 1.
  rewrite (map_contents_run funcmaps) by done.
  destruct (map_to_list (contents funcmaps h g)) as [|e entries] eqn:E; [|done].
  by apply map_to_list_empty_iff in E.
Qed.

(** C4 (as amended): for registries [f] and [g], [f] not nil unless [g]
    has no entry, [f.Add(g)] succeeds and returns [f] itself; afterwards a
    lookup of [n] in [f] gives [g]'s entry when [g] binds [n], else what
    [f] gave before (its entry, or absence when neither binds [n]); the
    names [f] binds are exactly those bound by [f] or by [g] before. *)
Theorem Functions_Add_union (h : Heap) (f g : Functions) :
  valid_map funcmaps h f →
  valid_map funcmaps h g →
  (f = nil_ref → contents funcmaps h g = ∅) →
  ∃ h', Functions_Add f g h = Ok f h' ∧
    (∀ n, ∃ rf rg,
       Functions_Get f n h = Ok rf h ∧
       Functions_Get g n h = Ok rg h ∧
       Functions_Get f n h' = Ok (if rg.2 then rg else rf) h' ∧
       (rf.2 = false → rf = (nil_Function, false))) ∧
    (∀ n, is_bound h' f n ↔ is_bound h f n ∨ is_bound h g n).
Proof.
  intros Hf Hg Hnil. destruct f as [l|].
  - destruct Hf as [c Hc].
    eexists. split; [by apply Functions_Add_run|].
    set (h' := with_funcmaps _ h).
    assert (Hl' : funcmaps h' !! l = Some (contents funcmaps h g ∪ c))
      by (simpl; apply lookup_insert_eq).
    assert (Hf : valid_map funcmaps h (Some l)) by (simpl; eauto).
    assert (Hf' : valid_map funcmaps h' (Some l))
      by (simpl; rewrite lookup_insert_eq; eauto).
    pose proof (contents_live funcmaps h l c Hc) as Hcf.
    pose proof (contents_live funcmaps h' l _ Hl') as Hcf'.
    split.
    + intros n. eexists _, _. rewrite !Functions_Get_run, Hcf, Hcf' by done.
      rewrite lookup_result_union. repeat split.
      unfold lookup_result. by destruct (c !! n).
    + intros n. rewrite !is_bound_lookup, Hcf, Hcf' by done.
      rewrite lookup_union_is_Some. tauto.
  - specialize (Hnil eq_refl). exists h.
    split; [by apply Functions_Add_nil_run|]. split.
    + intros n. eexists _, _. rewrite !Functions_Get_run by done.
      rewrite Hnil. repeat split.
    + intros n. rewrite !is_bound_lookup, Hnil by done. simpl.
      rewrite lookup_empty. split; [tauto|]. by intros [[? [=]]|[? [=]]].
Qed.

(** C4 (as stated) fails on a nil receiver: adding a one-entry registry
    to the nil registry panics on the first assignment. *)
Lemma Functions_Add_nil_panics :
  (g <- NewFunctions ;;
   _ <- Functions_Set g "len" (BasicFunction (func "lenFunction") "returns the length") ;;
   Functions_Add nil_ref g) empty_heap = Panic NilMapAssignment.
Proof. vm_compute. reflexivity. Qed.

(** ** NewContext copies the document *)


(** ** The now function *)

Lemma Functions_literal_singleton_run h name fn :
  ∃ l h', Functions_literal [(name, fn)] h = Ok (Some l) h' ∧
    funcmaps h' !! l = Some {[name := fn]}.
Proof.
  unfold Functions_literal, NewFunctions, make_map, bind; simpl.
  unfold bind, ret.
  erewrite (map_assign_run funcmaps with_funcmaps)
    by (rewrite funcmaps_with; apply lookup_insert_eq).
  eexists _, _. split; [done|]. rewrite funcmaps_with.
  rewrite lookup_insert_eq. by rewrite insert_empty.
Qed.

(** C10: whatever the format string and the reading of the clock,
    [nowFunction] returns, with a nil error, the format of the time
    [time.Now()] gave, a time in the local zone; it is not the format of
    that time converted to UTC (a formatting function that shows the zone
    tells them apart).  The description registered for ["now"] mentions
    UTC all the same. *)
Theorem nowFunction_local_time (Time_Format : time.Time → string → string)
    (built : string → string → Function) (wall_clock : Z) (format : string)
    (h : Heap) :
  datetime.nowFunction Time_Format wall_clock format
    = (Str (Time_Format (time.Now wall_clock) format), nil_error) ∧
  time.location (time.Now wall_clock) = time.Local ∧
  time.Now wall_clock ≠ time.Time_UTC (time.Now wall_clock) ∧
  datetime.nowFunction show_location wall_clock format
    ≠ (Str (show_location (time.Time_UTC (time.Now wall_clock)) format), nil_error) ∧
  ∃ f h', datetime.Functions built h = Ok f h' ∧
    Functions_Get f "now" h'
      = Ok (built "nowFunction" datetime.now_description, true) h' ∧
    mentions "(UTC)" datetime.now_description = true.
Proof.
  repeat split; try done.
  destruct (Functions_literal_singleton_run h "now"
              (built "nowFunction" datetime.now_description)) as (l & h' & Hrun & Hl).
  exists (Some l), h'. split; [exact Hrun|]. split; [|reflexivity].
  rewrite Functions_Get_run by (simpl; eauto).
  rewrite (contents_live funcmaps h' l _ Hl). unfold lookup_result.
  by rewrite lookup_singleton_eq.
Qed.

(** ** The theorems at the sample store *)

Lemma sample_variables_valid : valid_map varmaps sample_heap (Some 1%positive).
Proof. by eexists. Qed.

Lemma sample_functions_valid l :
  l = 1%positive ∨ l = 2%positive → valid_map funcmaps sample_heap (Some l).
Proof. intros [-> | ->]; by eexists. Qed.

Lemma sample_document_live : live_Document sample_heap (Some 1%positive).
Proof. by eexists. Qed.

(** The shared document handle, at the sample context. *)
Lemma Context_document_shared_sample :
  valid_map varmaps sample_heap (variables sample_Context) ∧
  live_Document sample_heap (Context_GetDocument sample_Context) ∧
  ∃ d h1, Context_WithVariable sample_Context "x" (Int64 1) sample_heap = Ok d h1 ∧
    Context_GetDocument d = Context_GetDocument sample_Context ∧
    Context_GetDocument (Context_WithCoalescer sample_Context Humane)
      = Context_GetDocument sample_Context ∧
    ∀ p q,
      p ∈ [Context_GetDocument sample_Context; Context_GetDocument d;
           Context_GetDocument (Context_WithCoalescer sample_Context Humane)] →
      q ∈ [Context_GetDocument sample_Context; Context_GetDocument d;
           Context_GetDocument (Context_WithCoalescer sample_Context Humane)] →
      ∃ h2, Document_Set p nil_any h1 = Ok tt h2 ∧ Document_Data q h2 = Ok nil_any h2.
Proof.
  split; [exact sample_variables_valid|]. split; [exact sample_document_live|].
  destruct (Context_document_shared sample_heap sample_Context "x" (Int64 1) Humane
              nil_any sample_variables_valid) as (d & h1 & Hrun & Hd & Hk & Hshared).
  exists d, h1. repeat split; try assumption.
  exact (Hshared sample_document_live).
Defined.

(** Deriving a context from the sample context. *)
Lemma Context_derivation_frame_sample :
  valid_Context sample_heap sample_Context ∧
  ∃ d h', Context_WithVariable sample_Context "x" (Int64 1) sample_heap = Ok d h' ∧
    Context_GetVariable d "x" h' = Ok (Int64 1, true) h' ∧
    (∀ m, m ≠ "x" →
       ∃ r, Context_GetVariable d m h' = Ok r h' ∧
         Context_GetVariable sample_Context m sample_heap = Ok r sample_heap) ∧
    (∀ m, ∃ r, Context_GetFunction d m h' = Ok r h' ∧
       Context_GetFunction sample_Context m sample_heap = Ok r sample_heap) ∧
    Context_Coalesce d = Context_Coalesce sample_Context ∧
    (∀ m, ∃ r, Context_GetVariable sample_Context m h' = Ok r h' ∧
       Context_GetVariable sample_Context m sample_heap = Ok r sample_heap) ∧
    (∀ m, ∃ r, Context_GetFunction sample_Context m h' = Ok r h' ∧
       Context_GetFunction sample_Context m sample_heap = Ok r sample_heap).
Proof.
  assert (Hvalid : valid_Context sample_heap sample_Context).
  { split; [exact sample_variables_valid | apply sample_functions_valid; by left]. }
  split; [exact Hvalid|].
  exact (proj1 (Context_derivation_frame sample_heap sample_Context "x" (Int64 1)
                  Humane Hvalid)).
Defined.

(** [With] and [Set] on the sample variables. *)
Lemma Variables_With_copies_Set_mutates_sample :
  valid_map varmaps sample_heap (Some 1%positive) ∧
  (∃ w h', Variables_With (Some 1%positive) "myvar" (Int64 7) sample_heap = Ok w h' ∧
     Variables_Get w "myvar" h' = Ok (Int64 7, true) h' ∧
     (∀ m, m ≠ "myvar" →
        ∃ r, Variables_Get w m h' = Ok r h' ∧
          Variables_Get (Some 1%positive) m sample_heap = Ok r sample_heap) ∧
     (∀ m, ∃ r, Variables_Get (Some 1%positive) m h' = Ok r h' ∧
        Variables_Get (Some 1%positive) m sample_heap = Ok r sample_heap)) ∧
  (∃ h', Variables_Set (Some 1%positive) "myvar" (Int64 7) sample_heap
           = Ok (Some 1%positive) h' ∧
     Variables_Get (Some 1%positive) "myvar" h' = Ok (Int64 7, true) h').
Proof.
  split; [exact sample_variables_valid|].
  destruct (Variables_With_copies_Set_mutates sample_heap (Some 1%positive) "myvar"
              (Int64 7) sample_variables_valid) as [HWith HSet].
  split; [exact HWith|]. apply HSet. discriminate.
Defined.

(** Adding the second sample registry to the first. *)
Lemma Functions_Add_union_sample :
  valid_map funcmaps sample_heap (Some 1%positive) ∧
  valid_map funcmaps sample_heap (Some 2%positive) ∧
  ∃ h', Functions_Add (Some 1%positive) (Some 2%positive) sample_heap
          = Ok (Some 1%positive) h' ∧
    (∀ n, ∃ rf rg,
       Functions_Get (Some 1%positive) n sample_heap = Ok rf sample_heap ∧
       Functions_Get (Some 2%positive) n sample_heap = Ok rg sample_heap ∧
       Functions_Get (Some 1%positive) n h' = Ok (if rg.2 then rg else rf) h' ∧
       (rf.2 = false → rf = (nil_Function, false))) ∧
    (∀ n, is_bound h' (Some 1%positive) n ↔
       is_bound sample_heap (Some 1%positive) n ∨ is_bound sample_heap (Some 2%positive) n).
Proof.
  assert (Hf : valid_map funcmaps sample_heap (Some 1%positive))
    by (apply sample_functions_valid; by left).
  assert (Hg : valid_map funcmaps sample_heap (Some 2%positive))
    by (apply sample_functions_valid; by right).
  split; [exact Hf|]. split; [exact Hg|].
  apply (Functions_Add_union sample_heap (Some 1%positive) (Some 2%positive) Hf Hg).
  discriminate.
Defined.


(** ** Contexts made by NewContext are well formed *)

Lemma NewContext_valid doc vs fs k h :
  valid_map varmaps h vs → valid_map funcmaps h fs →
  ∃ c h', NewContext doc vs fs k h = Ok c h' ∧
    valid_Context h' c ∧ live_Document h' (Context_GetDocument c).
Proof.
  intros Hvs Hfs.
  destruct (NewContext_run doc vs fs k h) as (c & h' & Hrun & Hd & Hdocs & _ & Hv & Hf).
  exists c, h'. split; [done|]. split; [split|].
  - clear Hf. case_decide; destruct Hv as [-> Hvm].
    + simpl. rewrite Hvm, lookup_insert_eq. by eexists.
    + by apply (valid_map_same varmaps h h').
  - clear Hv. case_decide; destruct Hf as [-> Hfm].
    + simpl. rewrite Hfm, lookup_insert_eq. by eexists.
    + by apply (valid_map_same funcmaps h h').
  - unfold Context_GetDocument. rewrite Hd. simpl.
    rewrite Hdocs, lookup_insert_eq. by eexists.
Qed.

Lemma Context_WithVariable_valid h c n v :
  valid_Context h c →
  ∃ d h', Context_WithVariable c n v h = Ok d h' ∧ valid_Context h' d ∧
    (live_Document h (Context_GetDocument c) → live_Document h' (Context_GetDocument d)).
Proof.
  intros [Hv Hf].
  destruct (Variables_With_spec h _ n v Hv) as (l & h' & Hrun & Hl & Hvm & Hdocs & Hfm).
  exists (mkContext (document c) (funcs c) (Some l) (coalescer c)), h'.
  split; [by unfold Context_WithVariable, bind; rewrite Hrun|]. split; [split|]; simpl.
  - rewrite Hvm, lookup_insert_eq. by eexists.
  - by apply (valid_map_same funcmaps h h').
  - unfold Context_GetDocument, live_Document; simpl. by rewrite Hdocs.
Qed.

(** ** Chains of additions *)

Lemma overlay_app h c others others' :
  overlay h c (others ++ others') = overlay h (overlay h c others) others'.
Proof. apply foldl_app. Qed.

Lemma overlay_unbound h others : ∀ c n,
  Forall (λ g, contents funcmaps h g !! n = None) others →
  overlay h c others !! n = c !! n.
Proof.
  induction others as [|g others IH]; intros c n Hall; [done|].
  apply Forall_cons in Hall as [Hg Hall]. simpl.
  change (overlay h (contents funcmaps h g ∪ c) others !! n = c !! n).
  rewrite IH by done. by rewrite lookup_union_r.
Qed.

(** Later additions win: the entry of the last registry that binds the
    name. *)
Lemma overlay_last_wins h c before g after n fn :
  contents funcmaps h g !! n = Some fn →
  Forall (λ g', contents funcmaps h g' !! n = None) after →
  overlay h c (before ++ g :: after) !! n = Some fn.
Proof.
  intros Hg Hafter. rewrite overlay_app.
  change (overlay h (contents funcmaps h g ∪ overlay h c before) after !! n = Some fn).
  rewrite overlay_unbound by done. by apply lookup_union_Some_l.
Qed.

Lemma Add_all_run h lf others : ∀ c,
  funcmaps h !! lf = None →
  Forall (valid_map funcmaps h) others →
  Add_all (Some lf) others (with_funcmaps (<[lf := c]> (funcmaps h)) h) =
    Ok (Some lf) (with_funcmaps (<[lf := overlay h c others]> (funcmaps h)) h).
Proof.
  induction others as [|g others IH]; intros c Hlf Hall; [done|].
  apply Forall_cons in Hall as [Hg Hall]. cbn [Add_all]. unfold bind.
  set (hc := with_funcmaps (<[lf := c]> (funcmaps h)) h).
  assert (Hext : funcmaps hc = <[lf := c]> (funcmaps h)) by done.
  rewrite (Functions_Add_run hc lf c g).
  - rewrite (contents_extend funcmaps h hc lf c Hlf Hext g Hg).
    subst hc. rewrite funcmaps_with, insert_insert_eq, with_funcmaps_with.
    by rewrite IH.
  - rewrite Hext. apply lookup_insert_eq.
  - by apply (valid_map_extend funcmaps h hc lf c).
Qed.

(** The registry of built-ins is a fresh registry holding, for every
    name, the entry of the last package that binds it. *)
Lemma builtin_Functions_run h core logic compare math strings lists hashing encoding
    datetime types coalesce :
  Forall (valid_map funcmaps h)
    [core; logic; compare; math; strings; lists; hashing; encoding; datetime; types;
     coalesce] →
  ∃ lf h', builtin_Functions core logic compare math strings lists hashing encoding
             datetime types coalesce h = Ok (Some lf) h' ∧
    funcmaps h !! lf = None ∧
    contents funcmaps h' (Some lf) =
      overlay h ∅ [core; logic; compare; math; strings; lists; hashing; encoding;
                   datetime; types; coalesce].
Proof.
  intros Hall. unfold builtin_Functions, Functions_literal, bind at 1.
  unfold bind at 1, NewFunctions, make_map. cbn [for_each]. unfold bind at 1, ret at 1.
  unfold ret at 1.
  set (lf := fresh (dom (funcmaps h))).
  assert (Hlf : funcmaps h !! lf = None) by apply (fresh_cell funcmaps).
  rewrite (Add_all_run h lf _ ∅ Hlf Hall).
  eexists lf, _. split; [done|]. split; [done|].
  simpl. by rewrite lookup_insert_eq.
Qed.

(** ** Small runs *)

(** The README's [rudi.NewVariables().Set("myvar", 42)], then a lookup. *)
Example NewVariables_Set_Get :
  ∃ h, (v <- NewVariables ;; v <- Variables_Set v "myvar" (Int64 42) ;;
        Variables_Get v "myvar") empty_heap = Ok (Int64 42, true) h.
Proof. eexists. vm_compute. reflexivity. Qed.

(** [With] leaves the receiver alone, [Set] does not. *)
Example Variables_With_then_Get :
  ∃ h, (w <- Variables_With (Some 1%positive) "x" (Int64 1) ;;
        a <- Variables_Get (Some 1%positive) "x" ;;
        b <- Variables_Get w "x" ;;
        c <- Variables_Get w "myvar" ;;
        ret (a, b, c)) sample_heap
       = Ok ((nil_any, false), (Int64 1, true), (Int64 42, true)) h.
Proof. eexists. vm_compute. reflexivity. Qed.

(** ["len"] is in both registries; after the addition the receiver holds
    three names. *)
Example Functions_Add_sample_names :
  ∃ h, (f <- Functions_Add (Some 1%positive) (Some 2%positive) ;;
        a <- Functions_Get f "range" ;;
        b <- Functions_Get f "concat" ;;
        c <- Functions_Get f "sha1" ;;
        ret (a.2, b.2, c)) sample_heap
       = Ok (true, true, (nil_Function, false)) h.
Proof. eexists. vm_compute. reflexivity. Qed.

(** A context made with nil sets and a nil coalescer, extended by one
    variable. *)
Example NewContext_then_WithVariable :
  ∃ h, (c <- NewContext (mkDocument nil_any) nil_ref nil_ref nil_Coalescer ;;
        d <- Context_WithVariable c "x" (Bool true) ;;
        a <- Context_GetVariable c "x" ;;
        b <- Context_GetVariable d "x" ;;
        _ <- Document_Set (Context_GetDocument d) (Str "new root") ;;
        r <- Document_Data (Context_GetDocument c) ;;
        ret (a, b, r, Context_Coalesce d)) empty_heap
       = Ok ((nil_any, false), (Bool true, true), Str "new root", Strict) h.
Proof. eexists. vm_compute. reflexivity. Qed.

(** ** Writing and deleting entries *)

Section map_cells_update.
Context {V : Type}.
Variable cells : Heap → gmap loc (gmap string V).
Variable with_cells : gmap loc (gmap string V) → Heap → Heap.
Hypothesis cells_with : ∀ c h, cells (with_cells c h) = c.
Hypothesis with_with : ∀ c c' h, with_cells c (with_cells c' h) = with_cells c h.
Hypothesis with_cells_id : ∀ h, with_cells (cells h) h = h.

(** Replacing the contents of one cell changes what that reference
    denotes and nothing else. *)
Lemma contents_update h l c' m :
  contents cells (with_cells (<[l := c']> (cells h)) h) m =
    if decide (m = Some l) then c' else contents cells h m.
Proof.
  destruct m as [l'|].
  - simpl. rewrite cells_with. case_decide as E.
    + injection E as ->. by rewrite lookup_insert_eq.
    + rewrite lookup_insert_ne; [done|]. congruence.
  - by rewrite decide_False.
Qed.

Lemma valid_map_update h l c' m :
  valid_map cells h m → valid_map cells (with_cells (<[l := c']> (cells h)) h) m.
Proof.
  destruct m as [l'|]; simpl; [|done]. rewrite cells_with. intros [c Hc].
  destruct (decide (l = l')) as [->|Hne].
  - rewrite lookup_insert_eq. by eexists.
  - rewrite lookup_insert_ne by done. by eexists.
Qed.

Lemma map_delete_run h l c name :
  cells h !! l = Some c →
  map_delete cells with_cells (Some l) name h =
    Ok tt (with_cells (<[l := delete name c]> (cells h)) h).
Proof. intros Hc. unfold map_delete. by rewrite Hc. Qed.

Lemma for_each_delete_run entries : ∀ h l c,
  cells h !! l = Some c →
  for_each entries (λ e : string * V, map_delete cells with_cells (Some l) e.1) h =
    Ok tt (with_cells (<[l := foldl delete_entry c entries]> (cells h)) h).
Proof.
  induction entries as [|e entries IH]; intros h l c Hc; simpl.
  - unfold ret. by rewrite insert_id, with_cells_id.
  - unfold bind. rewrite (map_delete_run h l c) by done.
    rewrite (IH _ l (delete e.1 c)).
    + by rewrite cells_with, insert_insert_eq, with_with.
    + by rewrite cells_with, lookup_insert_eq.
Qed.

Lemma for_each_delete_nil entries h :
  for_each entries (λ e : string * V, map_delete cells with_cells None e.1) h = Ok tt h.
Proof. induction entries as [|e entries IH]; [done|]. simpl. unfold bind. simpl. apply IH. Qed.
End map_cells_update.

Lemma for_each_ext {A} (xs : list A) (body body' : A → M unit) h :
  (∀ x h, body x h = body' x h) → for_each xs body h = for_each xs body' h.
Proof.
  intros Hext. revert h. induction xs as [|x xs IH]; intros h; [done|].
  simpl. unfold bind. rewrite Hext. destruct (body' x h); [apply IH | done].
Qed.

Lemma delete_difference_l {V} (c m : gmap string V) k :
  delete k c ∖ m = delete k (c ∖ m).
Proof.
  apply map_eq. intros j. rewrite lookup_difference, !lookup_delete, lookup_difference.
  case_decide; by destruct (m !! j).
Qed.

Lemma foldl_delete_entry {V} (l : list (string * V)) : ∀ c : gmap string V,
  foldl delete_entry c l = c ∖ list_to_map l.
Proof.
  induction l as [|[k v] l IH]; intros c; simpl.
  - by rewrite map_difference_empty.
  - rewrite IH. unfold delete_entry; simpl.
    by rewrite delete_difference_l, (delete_difference _ _ _ v).
Qed.

Lemma foldl_delete_map_to_list {V} (c cg : gmap string V) :
  foldl delete_entry c (map_to_list cg) = c ∖ cg.
Proof. by rewrite foldl_delete_entry, list_to_map_to_list. Qed.

Lemma Functions_Delete_run h l c name :
  funcmaps h !! l = Some c →
  Functions_Delete (Some l) name h =
    Ok (Some l) (with_funcmaps (<[l := delete name c]> (funcmaps h)) h).
Proof.
  intros Hc. unfold Functions_Delete, bind.
  by rewrite (map_delete_run funcmaps with_funcmaps h l c).
Qed.

Lemma Functions_Remove_run h l c other :
  funcmaps h !! l = Some c →
  valid_map funcmaps h other →
  Functions_Remove (Some l) other h =
    Ok (Some l) (with_funcmaps (<[l := c ∖ contents funcmaps h other]> (funcmaps h)) h).
Proof.
  intros Hc Ho. unfold Functions_Remove, map_range.
  unfold bind at 1. unfold bind at 1.
  rewrite (map_contents_run funcmaps) by done.
  unfold ret at 1. unfold bind.
  rewrite (for_each_ext _ _
    (λ e, map_delete funcmaps with_funcmaps (Some l) e.1)).
  - rewrite (for_each_delete_run funcmaps with_funcmaps funcmaps_with with_funcmaps_with
               with_funcmaps_id _ h l c) by done.
    by rewrite foldl_delete_map_to_list.
  - intros e h0. unfold Functions_Delete, bind.
    by destruct (map_delete funcmaps with_funcmaps (Some l) e.1 h0) as [[]|].
Qed.

Lemma Functions_Remove_nil_run h other :
  valid_map funcmaps h other → Functions_Remove nil_ref other h = Ok nil_ref h.
Proof.
  intros Ho. unfold Functions_Remove, map_range.
  unfold bind at 1. unfold bind at 1.
  rewrite (map_contents_run funcmaps) by done.
  unfold ret at 1. unfold bind.
  rewrite (for_each_ext _ _ (λ e, map_delete funcmaps with_funcmaps None e.1)).
  - by rewrite for_each_delete_nil.
  - intros e h0. reflexivity.
Qed.

(** A lookup reads what the reference denotes, in one equation for both
    sides of a comparison. *)
Lemma Functions_Get_same h h' f f' n :
  valid_map funcmaps h f → valid_map funcmaps h' f' →
  contents funcmaps h' f' !! n = contents funcmaps h f !! n →
  ∃ r, Functions_Get f' n h' = Ok r h' ∧ Functions_Get f n h = Ok r h.
Proof.
  intros Hf Hf' Heq. eexists. rewrite !Functions_Get_run by done.
  unfold lookup_result. by rewrite Heq.
Qed.

Lemma Variables_Get_same h h' v v' n :
  valid_map varmaps h v → valid_map varmaps h' v' →
  contents varmaps h' v' !! n = contents varmaps h v !! n →
  ∃ r, Variables_Get v' n h' = Ok r h' ∧ Variables_Get v n h = Ok r h.
Proof.
  intros Hv Hv' Heq. eexists. rewrite !Variables_Get_run by done.
  unfold lookup_result. by rewrite Heq.
Qed.

Lemma lookup_result_false {V} (zero : V) (c : gmap string V) n :
  lookup_result zero c n = (zero, false) ↔ c !! n = None.
Proof. unfold lookup_result. destruct (c !! n); split; congruence. Qed.

Lemma lookup_result_true {V} (zero : V) (c : gmap string V) n v :
  lookup_result zero c n = (v, true) ↔ c !! n = Some v.
Proof. unfold lookup_result. destruct (c !! n); split; congruence. Qed.

Lemma Functions_Get_unbound h f n :
  valid_map funcmaps h f →
  Functions_Get f n h = Ok (nil_Function, false) h ↔ contents funcmaps h f !! n = None.
Proof.
  intros Hf. rewrite Functions_Get_run by done. rewrite <- lookup_result_false.
  split; [by intros [=] | by intros ->].
Qed.

Lemma Functions_Get_bound h f n fn :
  valid_map funcmaps h f →
  Functions_Get f n h = Ok (fn, true) h ↔ contents funcmaps h f !! n = Some fn.
Proof.
  intros Hf. rewrite Functions_Get_run by done.
  rewrite <- (lookup_result_true nil_Function).
  split; [by intros [=] | by intros ->].
Qed.

Lemma rewrites_registry_cell h l c c' :
  funcmaps h !! l = Some c →
  rewrites_registry h (with_funcmaps (<[l := c']> (funcmaps h)) h) (Some l) c'.
Proof.
  intros Hc. split; [|done]. intros g Hg. split.
  - by apply (valid_map_update funcmaps with_funcmaps funcmaps_with).
  - apply (contents_update funcmaps with_funcmaps funcmaps_with).
Qed.

Lemma rewrites_registry_nil h : rewrites_registry h h nil_ref ∅.
Proof.
  split; [|done]. intros g Hg. split; [done|].
  case_decide as E; [by rewrite E | done].
Qed.

Lemma rewrites_registry_other h h' f c' g n :
  rewrites_registry h h' f c' → g ≠ f → valid_map funcmaps h g →
  ∃ r, Functions_Get g n h' = Ok r h' ∧ Functions_Get g n h = Ok r h.
Proof.
  intros [Hall _] Hne Hg. destruct (Hall g Hg) as [Hg' Hc].
  apply Functions_Get_same; [done..|]. by rewrite Hc, decide_False.
Qed.

Lemma rewrites_registry_self h h' f c' :
  rewrites_registry h h' f c' → valid_map funcmaps h f →
  valid_map funcmaps h' f ∧ contents funcmaps h' f = c'.
Proof.
  intros [Hall _] Hf. destruct (Hall f Hf) as [Hf' Hc].
  by rewrite decide_True in Hc.
Qed.

Lemma Functions_Set_spec h f n fn :
  valid_map funcmaps h f → f ≠ nil_ref →
  ∃ h', Functions_Set f n fn h = Ok f h' ∧
    rewrites_registry h h' f (<[n := fn]> (contents funcmaps h f)).
Proof.
  intros Hf Hnil. destruct f as [l|]; [|done]. destruct Hf as [c Hc].
  eexists. split; [by apply Functions_Set_run|].
  rewrite (contents_live funcmaps h l c Hc). by apply (rewrites_registry_cell _ _ c).
Qed.

Lemma Functions_Remove_spec h f g :
  valid_map funcmaps h f → valid_map funcmaps h g →
  ∃ h', Functions_Remove f g h = Ok f h' ∧
    rewrites_registry h h' f (contents funcmaps h f ∖ contents funcmaps h g).
Proof.
  intros Hf Hg. destruct f as [l|].
  - destruct Hf as [c Hc]. eexists. split; [by apply Functions_Remove_run|].
    rewrite (contents_live funcmaps h l c Hc). by apply (rewrites_registry_cell _ _ c).
  - exists h. split; [by apply Functions_Remove_nil_run|]. simpl.
    rewrite map_empty_difference. apply rewrites_registry_nil.
Qed.

Lemma Functions_Add_spec h f g :
  valid_map funcmaps h f → valid_map funcmaps h g →
  (f = nil_ref → contents funcmaps h g = ∅) →
  ∃ h', Functions_Add f g h = Ok f h' ∧
    rewrites_registry h h' f (contents funcmaps h g ∪ contents funcmaps h f).
Proof.
  intros Hf Hg Hnil. destruct f as [l|].
  - destruct Hf as [c Hc]. eexists. split; [by apply Functions_Add_run|].
    rewrite (contents_live funcmaps h l c Hc). by apply (rewrites_registry_cell _ _ c).
  - specialize (Hnil eq_refl). exists h. split; [by apply Functions_Add_nil_run|].
    simpl. rewrite Hnil, (left_id_L ∅ (∪)). apply rewrites_registry_nil.
Qed.

(** ** Set, Delete and Remove on a registry *)

(** [Set] on a registry that is not nil succeeds and returns it: the name
    is then bound to the function given, every other name and every other
    registry reads as before.  On the nil registry it panics. *)
Theorem Functions_Set_then_Get (h : Heap) (f : Functions) (n : string) (fn : Function) :
  valid_map funcmaps h f →
  (f = nil_ref → Functions_Set f n fn h = Panic NilMapAssignment) ∧
  (f ≠ nil_ref →
     ∃ h', Functions_Set f n fn h = Ok f h' ∧
       Functions_Get f n h' = Ok (fn, true) h' ∧
       (∀ m, m ≠ n →
          ∃ r, Functions_Get f m h' = Ok r h' ∧ Functions_Get f m h = Ok r h) ∧
       (∀ g m, g ≠ f → valid_map funcmaps h g →
          ∃ r, Functions_Get g m h' = Ok r h' ∧ Functions_Get g m h = Ok r h)).
Proof.
  intros Hf. split; [by intros ->|]. intros Hnil.
  destruct (Functions_Set_spec h f n fn Hf Hnil) as (h' & Hrun & Hrw).
  destruct (rewrites_registry_self _ _ _ _ Hrw Hf) as [Hf' Hc].
  exists h'. split; [done|]. repeat split.
  - apply Functions_Get_bound; [done|]. by rewrite Hc, lookup_insert_eq.
  - intros m Hne. apply Functions_Get_same; [done..|].
    by rewrite Hc, lookup_insert_ne.
  - intros g m Hne Hg. by apply (rewrites_registry_other h h' f _ g m Hrw).
Qed.

(** [Delete] never fails, on the nil registry either, and returns its
    receiver: the name is then unbound, every other name and every other
    registry reads as before; deleting a name that is not bound leaves
    the store as it is. *)
Theorem Functions_Delete_unbinds (h : Heap) (f : Functions) (n : string) :
  valid_map funcmaps h f →
  ∃ h', Functions_Delete f n h = Ok f h' ∧
    Functions_Get f n h' = Ok (nil_Function, false) h' ∧
    (∀ m, m ≠ n →
       ∃ r, Functions_Get f m h' = Ok r h' ∧ Functions_Get f m h = Ok r h) ∧
    (∀ g m, g ≠ f → valid_map funcmaps h g →
       ∃ r, Functions_Get g m h' = Ok r h' ∧ Functions_Get g m h = Ok r h) ∧
    (Functions_Get f n h = Ok (nil_Function, false) h → h' = h).
Proof.
  intros Hf.
  assert (∃ h', Functions_Delete f n h = Ok f h' ∧
            rewrites_registry h h' f (delete n (contents funcmaps h f)) ∧
            (contents funcmaps h f !! n = None → h' = h)) as (h' & Hrun & Hrw & Hid).
  { destruct f as [l|].
    - destruct Hf as [c Hc]. eexists. split; [by apply Functions_Delete_run|].
      rewrite (contents_live funcmaps h l c Hc). split; [by apply (rewrites_registry_cell _ _ c)|].
      intros Hn. by rewrite delete_id, insert_id, with_funcmaps_id.
    - exists h. split; [done|]. split; [|done]. simpl. rewrite delete_empty.
      apply rewrites_registry_nil. }
  destruct (rewrites_registry_self _ _ _ _ Hrw Hf) as [Hf' Hc].
  exists h'. split; [done|]. repeat split.
  - apply Functions_Get_unbound; [done|]. by rewrite Hc, lookup_delete_eq.
  - intros m Hne. apply Functions_Get_same; [done..|].
    by rewrite Hc, lookup_delete_ne.
  - intros g m Hne Hg. by apply (rewrites_registry_other h h' f _ g m Hrw).
  - intros Hget. apply Hid. by apply Functions_Get_unbound.
Qed.

(** Registering a function under a name that is not bound and deleting it
    again gives back the very store: [Delete] undoes [Set]. *)
Theorem Functions_Set_Delete_round_trip (h : Heap) (f : Functions) (n : string)
    (fn : Function) :
  valid_map funcmaps h f → f ≠ nil_ref →
  Functions_Get f n h = Ok (nil_Function, false) h →
  ∃ h1, Functions_Set f n fn h = Ok f h1 ∧ Functions_Delete f n h1 = Ok f h.
Proof.
  intros Hf Hnil Hget. apply Functions_Get_unbound in Hget; [|done].
  destruct f as [l|]; [|done]. destruct Hf as [c Hc].
  rewrite (contents_live funcmaps h l c Hc) in Hget.
  eexists. split; [by apply Functions_Set_run|].
  erewrite Functions_Delete_run by (rewrite funcmaps_with; apply lookup_insert_eq).
  rewrite funcmaps_with, insert_insert_eq, with_funcmaps_with.
  by rewrite delete_insert_id, insert_id, with_funcmaps_id.
Qed.

(** [Remove] never fails, whatever is nil, and returns its receiver [f]:
    afterwards [f] binds a name exactly when it did and [g] did not, with
    the entry it had, and every other registry reads as before.  When [g]
    is [f] itself, [f] ends up empty. *)
Theorem Functions_Remove_difference (h : Heap) (f g : Functions) :
  valid_map funcmaps h f →
  valid_map funcmaps h g →
  ∃ h', Functions_Remove f g h = Ok f h' ∧
    (∀ n, ∃ rf rg,
       Functions_Get f n h = Ok rf h ∧
       Functions_Get g n h = Ok rg h ∧
       Functions_Get f n h' = Ok (if rg.2 then (nil_Function, false) else rf) h') ∧
    (∀ g' n, g' ≠ f → valid_map funcmaps h g' →
       ∃ r, Functions_Get g' n h' = Ok r h' ∧ Functions_Get g' n h = Ok r h) ∧
    (g = f → ∀ n, Functions_Get f n h' = Ok (nil_Function, false) h').
Proof.
  intros Hf Hg.
  destruct (Functions_Remove_spec h f g Hf Hg) as (h' & Hrun & Hrw).
  destruct (rewrites_registry_self _ _ _ _ Hrw Hf) as [Hf' Hc].
  exists h'. split; [done|]. repeat split.
  - intros n. eexists _, _. rewrite !Functions_Get_run, Hc by done. repeat split.
    unfold lookup_result. rewrite lookup_difference.
    by destruct (contents funcmaps h g !! n), (contents funcmaps h f !! n).
  - intros g' n Hne Hg'. by apply (rewrites_registry_other h h' f _ g' n Hrw).
  - intros -> n. apply Functions_Get_unbound; [done|].
    by rewrite Hc, map_difference_diag, lookup_empty.
Qed.

(** Adding [g] to [f] and removing it again is not a round trip: [f] keeps
    only the entries of names that [g] does not bind, so an entry of [f]
    that [g] overrode is lost.  It is a round trip when the two share no
    name. *)
Theorem Functions_Add_then_Remove (h : Heap) (f g : Functions) :
  valid_map funcmaps h f →
  valid_map funcmaps h g →
  (f = nil_ref → contents funcmaps h g = ∅) →
  ∃ h', (f' <- Functions_Add f g ;; Functions_Remove f' g) h = Ok f h' ∧
    (∀ n, ∃ rf rg,
       Functions_Get f n h = Ok rf h ∧
       Functions_Get g n h = Ok rg h ∧
       Functions_Get f n h' = Ok (if rg.2 then (nil_Function, false) else rf) h') ∧
    ((∀ n, ¬ (is_bound h f n ∧ is_bound h g n)) →
     ∀ n, ∃ r, Functions_Get f n h' = Ok r h' ∧ Functions_Get f n h = Ok r h).
Proof.
  intros Hf Hg Hnil.
  destruct (Functions_Add_spec h f g Hf Hg Hnil) as (h1 & Hadd & Hrw1).
  destruct (rewrites_registry_self _ _ _ _ Hrw1 Hf) as [Hf1 Hc1].
  destruct (proj1 Hrw1 g Hg) as [Hg1 Hcg1].
  destruct (Functions_Remove_spec h1 f g Hf1 Hg1) as (h' & Hrem & Hrw2).
  destruct (rewrites_registry_self _ _ _ _ Hrw2 Hf1) as [Hf' Hc'].
  assert (Hlook : ∀ n, contents funcmaps h' f !! n =
            match contents funcmaps h g !! n with
            | Some _ => None
            | None => contents funcmaps h f !! n
            end).
  { intros n. rewrite Hc', lookup_difference, Hc1, Hcg1.
    case_decide as E.
    - rewrite E. rewrite lookup_union.
      by destruct (contents funcmaps h f !! n).
    - rewrite lookup_union.
      by destruct (contents funcmaps h g !! n), (contents funcmaps h f !! n). }
  exists h'. split; [by unfold bind; rewrite Hadd|]. split.
  - intros n. eexists _, _. rewrite !Functions_Get_run by done. repeat split.
    unfold lookup_result. rewrite Hlook.
    by destruct (contents funcmaps h g !! n), (contents funcmaps h f !! n).
  - intros Hdisj n. apply Functions_Get_same; [done..|]. rewrite Hlook.
    destruct (contents funcmaps h g !! n) as [fg|] eqn:Eg; [|done].
    destruct (contents funcmaps h f !! n) as [ff|] eqn:Ef; [|done].
    exfalso. apply (Hdisj n). split; apply is_bound_lookup; try done; by eexists.
Qed.

(** ** Copies *)

Section copy_independence.
Context {V : Type}.
Variable cells : Heap → gmap loc (gmap string V).
Variable with_cells : gmap loc (gmap string V) → Heap → Heap.
Hypothesis cells_with : ∀ c h, cells (with_cells c h) = c.
Hypothesis with_with : ∀ c c' h, with_cells c (with_cells c' h) = with_cells c h.
Hypothesis with_cells_id : ∀ h, with_cells (cells h) h = h.
Variable zero : V.

(** The copy loop returns a new cell; reads through the copy give what the
    original gave, reads through old references are unchanged, and a
    later assignment through the copy or through the original is not seen
    through the other. *)
Lemma copy_independent h m :
  valid_map cells h m →
  ∃ l h',
    (result <- make_map cells with_cells ;;
     entries <- map_range cells m ;;
     for_each entries (λ e, map_assign cells with_cells result e.1 e.2) ;;;
     ret result) h = Ok (Some l) h' ∧
    (∀ m', valid_map cells h m' → m' ≠ Some l) ∧
    (∀ n, map_index cells zero (Some l) n h' =
            Ok (lookup_result zero (contents cells h m) n) h') ∧
    (∀ m' n, valid_map cells h m' →
       map_index cells zero m' n h' = Ok (lookup_result zero (contents cells h m') n) h') ∧
    (∀ n x, ∃ h2, map_assign cells with_cells (Some l) n x h' = Ok tt h2 ∧
       ∀ m' k, valid_map cells h m' →
         map_index cells zero m' k h2 = Ok (lookup_result zero (contents cells h m') k) h2) ∧
    (∀ n x, m ≠ nil_ref →
       ∃ h2, map_assign cells with_cells m n x h' = Ok tt h2 ∧
         ∀ k, map_index cells zero (Some l) k h2 =
                Ok (lookup_result zero (contents cells h m) k) h2).
Proof.
  intros Hm. set (l := fresh (dom (cells h))).
  set (h' := with_cells (<[l := contents cells h m]> (cells h)) h).
  assert (Hl : cells h !! l = None) by apply (fresh_cell cells).
  assert (Hext : cells h' = <[l := contents cells h m]> (cells h)) by apply cells_with.
  assert (Hnew : cells h' !! l = Some (contents cells h m))
    by (rewrite Hext; apply lookup_insert_eq).
  assert (Hold : ∀ m', valid_map cells h m' → m' ≠ Some l).
  { intros m' Hm' ->. destruct Hm' as [c Hc]. congruence. }
  exists l, h'. split; [by apply copy_run|]. split; [done|]. split; [|split; [|split]].
  - intros n. rewrite map_index_run by (simpl; eauto). simpl. by rewrite Hnew.
  - intros m' n Hm'.
    rewrite map_index_run by by apply (valid_map_extend cells h h' l _ Hl Hext).
    by rewrite (contents_extend cells h h' l _ Hl Hext).
  - intros n x. eexists. split; [by apply map_assign_run|].
    intros m' k Hm'. rewrite map_index_run.
    + rewrite (contents_update cells with_cells cells_with).
      rewrite decide_False by by apply Hold.
      by rewrite (contents_extend cells h h' l _ Hl Hext).
    + apply (valid_map_update cells with_cells cells_with).
      by apply (valid_map_extend cells h h' l _ Hl Hext).
  - intros n x Hnil. destruct m as [l0|]; [|done]. destruct Hm as [c Hc].
    assert (Hne : l ≠ l0) by (intros ->; congruence).
    assert (Hc' : cells h' !! l0 = Some c) by (by rewrite Hext, lookup_insert_ne).
    eexists. split; [by apply map_assign_run|].
    intros k. rewrite map_index_run.
    + rewrite (contents_update cells with_cells cells_with).
      rewrite decide_False by congruence. simpl. rewrite Hnew. simpl. by rewrite Hc.
    + apply (valid_map_update cells with_cells cells_with). simpl. eauto.
Qed.
End copy_independence.

Lemma Functions_Set_assign f n fn h h' :
  map_assign funcmaps with_funcmaps f n fn h = Ok tt h' → Functions_Set f n fn h = Ok f h'.
Proof. intros Hrun. unfold Functions_Set, bind. by rewrite Hrun. Qed.

Lemma Variables_Set_assign v n x h h' :
  map_assign varmaps with_varmaps v n x h = Ok tt h' → Variables_Set v n x h = Ok v h'.
Proof. intros Hrun. unfold Variables_Set, bind. by rewrite Hrun. Qed.

(** [DeepCopy] of a registry, nil or not, returns a registry that is not
    nil and is none of the registries there were.  It reads like the
    original, no existing registry changes, and a later [Set] on the copy
    or on the original is not seen through the other. *)
Theorem Functions_DeepCopy_independent (h : Heap) (f : Functions) :
  valid_map funcmaps h f →
  ∃ g h', Functions_DeepCopy f h = Ok g h' ∧
    g ≠ nil_ref ∧
    (∀ f', valid_map funcmaps h f' → f' ≠ g) ∧
    (∀ n, ∃ r, Functions_Get g n h' = Ok r h' ∧ Functions_Get f n h = Ok r h) ∧
    (∀ f' n, valid_map funcmaps h f' →
       ∃ r, Functions_Get f' n h' = Ok r h' ∧ Functions_Get f' n h = Ok r h) ∧
    (∀ n fn, ∃ h2, Functions_Set g n fn h' = Ok g h2 ∧
       ∀ m, ∃ r, Functions_Get f m h2 = Ok r h2 ∧ Functions_Get f m h = Ok r h) ∧
    (∀ n fn, f ≠ nil_ref →
       ∃ h2, Functions_Set f n fn h' = Ok f h2 ∧
         ∀ m, ∃ r, Functions_Get g m h2 = Ok r h2 ∧ Functions_Get f m h = Ok r h).
Proof.
  intros Hf.
  destruct (copy_independent funcmaps with_funcmaps funcmaps_with with_funcmaps_with
              with_funcmaps_id nil_Function h f Hf)
    as (l & h' & Hrun & Hfresh & Hcopy & Hold & Hsetc & Hseto).
  exists (Some l), h'. split; [exact Hrun|]. split; [done|]. split; [done|].
  split; [|split; [|split]].
  - intros n. eexists. split; [apply Hcopy | by apply Functions_Get_run].
  - intros f' n Hf'. eexists. split; [by apply Hold | by apply Functions_Get_run].
  - intros n fn. destruct (Hsetc n fn) as (h2 & Hset & Hget).
    exists h2. split; [by apply Functions_Set_assign|].
    intros m. eexists. split; [by apply Hget | by apply Functions_Get_run].
  - intros n fn Hnil. destruct (Hseto n fn Hnil) as (h2 & Hset & Hget).
    exists h2. split; [by apply Functions_Set_assign|].
    intros m. eexists. split; [by apply Hget | by apply Functions_Get_run].
Qed.

(** [DeepCopy] of a variable set, nil or not, returns a set that is not
    nil and is none of the sets there were.  It reads like the original,
    no existing set changes, and a later [Set] on the copy or on the
    original is not seen through the other. *)
Theorem Variables_DeepCopy_independent (h : Heap) (v : Variables) :
  valid_map varmaps h v →
  ∃ w h', Variables_DeepCopy v h = Ok w h' ∧
    w ≠ nil_ref ∧
    (∀ v', valid_map varmaps h v' → v' ≠ w) ∧
    (∀ n, ∃ r, Variables_Get w n h' = Ok r h' ∧ Variables_Get v n h = Ok r h) ∧
    (∀ v' n, valid_map varmaps h v' →
       ∃ r, Variables_Get v' n h' = Ok r h' ∧ Variables_Get v' n h = Ok r h) ∧
    (∀ n x, ∃ h2, Variables_Set w n x h' = Ok w h2 ∧
       ∀ m, ∃ r, Variables_Get v m h2 = Ok r h2 ∧ Variables_Get v m h = Ok r h) ∧
    (∀ n x, v ≠ nil_ref →
       ∃ h2, Variables_Set v n x h' = Ok v h2 ∧
         ∀ m, ∃ r, Variables_Get w m h2 = Ok r h2 ∧ Variables_Get v m h = Ok r h).
Proof.
  intros Hv.
  destruct (copy_independent varmaps with_varmaps varmaps_with with_varmaps_with
              with_varmaps_id nil_any h v Hv)
    as (l & h' & Hrun & Hfresh & Hcopy & Hold & Hsetc & Hseto).
  exists (Some l), h'. split; [exact Hrun|]. split; [done|]. split; [done|].
  split; [|split; [|split]].
  - intros n. eexists. split; [apply Hcopy | by apply Variables_Get_run].
  - intros v' n Hv'. eexists. split; [by apply Hold | by apply Variables_Get_run].
  - intros n x. destruct (Hsetc n x) as (h2 & Hset & Hget).
    exists h2. split; [by apply Variables_Set_assign|].
    intros m. eexists. split; [by apply Hget | by apply Variables_Get_run].
  - intros n x Hnil. destruct (Hseto n x Hnil) as (h2 & Hset & Hget).
    exists h2. split; [by apply Variables_Set_assign|].
    intros m. eexists. split; [by apply Hget | by apply Variables_Get_run].
Qed.

(** ** More on Add *)

(** [Add] touches nothing but its receiver: every other registry (the one
    added included), every variable set and every document stay as they
    are.  Adding the same registry a second time changes nothing, and
    adding a registry to itself changes nothing at all. *)
Theorem Functions_Add_frame_idempotent (h : Heap) (f g : Functions) :
  valid_map funcmaps h f →
  valid_map funcmaps h g →
  (f = nil_ref → contents funcmaps h g = ∅) →
  ∃ h', Functions_Add f g h = Ok f h' ∧
    (∀ g' n, g' ≠ f → valid_map funcmaps h g' →
       ∃ r, Functions_Get g' n h' = Ok r h' ∧ Functions_Get g' n h = Ok r h) ∧
    varmaps h' = varmaps h ∧ documents h' = documents h ∧
    Functions_Add f g h' = Ok f h' ∧
    (g = f → h' = h).
Proof.
  intros Hf Hg Hnil. destruct f as [l|].
  - destruct Hf as [c Hc].
    set (h' := with_funcmaps (<[l := contents funcmaps h g ∪ c]> (funcmaps h)) h).
    assert (Hrw : rewrites_registry h h' (Some l) (contents funcmaps h g ∪ c))
      by by apply (rewrites_registry_cell _ _ c).
    exists h'. split; [by apply Functions_Add_run|]. split; [|split; [|split; [|split]]].
    + intros g' n Hne Hg'. by apply (rewrites_registry_other h h' _ _ g' n Hrw).
    + done.
    + done.
    + destruct (proj1 Hrw g Hg) as [Hg' Hcg].
      rewrite (Functions_Add_run h' l (contents funcmaps h g ∪ c))
        by (done || apply lookup_insert_eq).
      f_equal.
      assert (contents funcmaps h' g ∪ (contents funcmaps h g ∪ c)
              = contents funcmaps h g ∪ c) as ->.
      { rewrite Hcg. case_decide.
        - by rewrite (idemp_L (∪)).
        - by rewrite (assoc_L (∪)), (idemp_L (∪)). }
      subst h'. rewrite funcmaps_with, insert_insert_eq. by rewrite with_funcmaps_with.
    + intros ->. subst h'. simpl. rewrite Hc. simpl.
      by rewrite (idemp_L (∪)), insert_id, with_funcmaps_id.
  - specialize (Hnil eq_refl). exists h.
    split; [by apply Functions_Add_nil_run|]. split; [|split; [|split; [|split]]]; try done.
    + intros g' n Hne Hg'. by apply Functions_Get_same.
    + by apply Functions_Add_nil_run.
Qed.

(** [range] visits the entries of the registry added in an order the
    language leaves open: in whatever order the loop of [Add] takes them,
    the outcome is the one of [Add], panic on a nil receiver included. *)
Theorem Functions_Add_any_order (h : Heap) (f g : Functions)
    (entries : list (string * Function)) :
  valid_map funcmaps h f →
  valid_map funcmaps h g →
  entries ≡ₚ map_to_list (contents funcmaps h g) →
  (for_each entries (λ e, map_assign funcmaps with_funcmaps f e.1 e.2) ;;; ret f) h
    = Functions_Add f g h.
Proof.
  intros Hf Hg Hperm. destruct f as [l|].
  - destruct Hf as [c Hc]. rewrite (Functions_Add_run h l c g) by done. unfold bind.
    by rewrite (for_each_assign_any_order funcmaps with_funcmaps funcmaps_with
                  with_funcmaps_with with_funcmaps_id entries (contents funcmaps h g) h l c).
  - destruct (decide (contents funcmaps h g = ∅)) as [Hempty|Hne].
    + rewrite Functions_Add_nil_run by done.
      rewrite Hempty, map_to_list_empty in Hperm.
      by apply Permutation_nil_r in Hperm as ->.
    + rewrite Functions_Add_nil_nonempty by done.
      destruct entries as [|e entries]; [|done].
      symmetry in Hperm. apply Permutation_nil_r in Hperm.
      by apply map_to_list_empty_iff in Hperm.
Qed.

(** ** The registry of built-ins *)

Lemma overlay_lookup_Get h packages n r :
  Forall (valid_map funcmaps h) packages →
  Forall (λ g, Functions_Get g n h = Ok r h) packages →
  r = (nil_Function, false) →
  Forall (λ g, contents funcmaps h g !! n = None) packages.
Proof.
  intros Hvalid Hget ->. induction packages as [|g packages IH]; [done|].
  apply Forall_cons in Hvalid as [Hg Hvalid]. apply Forall_cons in Hget as [Hn Hget].
  apply Forall_cons. split; [by apply Functions_Get_unbound | by apply IH].
Qed.

(** [builtin.Functions] is a new registry, not nil, that is none of the
    package registries.  For every name it holds the entry of the last
    package in the chain that binds the name, so a later package
    overrides an earlier one; it does not bind a name no package binds,
    and the package registries read as before. *)
Theorem builtin_Functions_last_wins (h : Heap)
    (core logic compare math strings lists hashing encoding datetime types coalesce :
       Functions) :
  Forall (valid_map funcmaps h)
    [core; logic; compare; math; strings; lists; hashing; encoding; datetime; types;
     coalesce] →
  ∃ f h', builtin_Functions core logic compare math strings lists hashing encoding
            datetime types coalesce h = Ok f h' ∧
    f ≠ nil_ref ∧
    (∀ g, valid_map funcmaps h g → g ≠ f) ∧
    (∀ before g after n fn,
       [core; logic; compare; math; strings; lists; hashing; encoding; datetime; types;
        coalesce] = (before ++ g :: after)%list →
       Functions_Get g n h = Ok (fn, true) h →
       Forall (λ g', Functions_Get g' n h = Ok (nil_Function, false) h) after →
       Functions_Get f n h' = Ok (fn, true) h') ∧
    (∀ n,
       Forall (λ g, Functions_Get g n h = Ok (nil_Function, false) h)
         [core; logic; compare; math; strings; lists; hashing; encoding; datetime; types;
          coalesce] →
       Functions_Get f n h' = Ok (nil_Function, false) h') ∧
    (∀ g n, valid_map funcmaps h g →
       ∃ r, Functions_Get g n h' = Ok r h' ∧ Functions_Get g n h = Ok r h).
Proof.
  set (packages := [core; logic; compare; math; strings; lists; hashing; encoding;
                    datetime; types; coalesce]).
  intros Hall.
  assert (Hrun : builtin_Functions core logic compare math strings lists hashing encoding
            datetime types coalesce h
          = Ok (Some (fresh (dom (funcmaps h))))
              (with_funcmaps
                 (<[fresh (dom (funcmaps h)) := overlay h ∅ packages]> (funcmaps h)) h)).
  { unfold builtin_Functions, Functions_literal, bind at 1.
    unfold bind at 1, NewFunctions, make_map. cbn [for_each]. unfold bind at 1, ret at 1.
    unfold ret at 1.
    by rewrite (Add_all_run h _ _ ∅ (fresh_cell funcmaps h) Hall). }
  set (lf := fresh (dom (funcmaps h))) in *.
  set (h' := with_funcmaps _ h) in *.
  assert (Hlf : funcmaps h !! lf = None) by apply (fresh_cell funcmaps).
  assert (Hext : funcmaps h' = <[lf := overlay h ∅ packages]> (funcmaps h)) by done.
  assert (Hf' : valid_map funcmaps h' (Some lf))
    by (simpl; rewrite lookup_insert_eq; eauto).
  assert (Hcf : contents funcmaps h' (Some lf) = overlay h ∅ packages)
    by (simpl; by rewrite lookup_insert_eq).
  exists (Some lf), h'. split; [exact Hrun|]. split; [done|].
  split; [|split; [|split]].
  - intros g Hg ->. destruct Hg as [c Hc]. congruence.
  - intros before g after n fn Hsplit Hg Hafter.
    assert (Hvg : valid_map funcmaps h g).
    { eapply Forall_forall; [exact Hall|]. fold packages. rewrite Hsplit.
      apply elem_of_app. right. apply elem_of_cons. by left. }
    assert (Hva : Forall (valid_map funcmaps h) after).
    { apply Forall_forall. intros g' Hg'. eapply Forall_forall; [exact Hall|].
      fold packages. rewrite Hsplit. apply elem_of_app. right. apply elem_of_cons.
      by right. }
    apply Functions_Get_bound; [done|]. rewrite Hcf. fold packages in Hsplit.
    rewrite Hsplit. apply overlay_last_wins.
    + by apply Functions_Get_bound.
    + by eapply overlay_lookup_Get.
  - intros n Hnone. apply Functions_Get_unbound; [done|]. rewrite Hcf.
    rewrite overlay_unbound; [apply lookup_empty|].
    by eapply overlay_lookup_Get.
  - intros g n Hg. apply Functions_Get_same; [done| |].
    + by apply (valid_map_extend funcmaps h h' lf _ Hlf Hext).
    + by rewrite (contents_extend funcmaps h h' lf _ Hlf Hext).
Qed.

(** ** What a context shares with its maker *)

Lemma Variables_Set_spec h v n x :
  valid_map varmaps h v → v ≠ nil_ref →
  ∃ h', Variables_Set v n x h = Ok v h' ∧
    (∀ w, valid_map varmaps h w →
       valid_map varmaps h' w ∧
       contents varmaps h' w =
         if decide (w = v) then <[n := x]> (contents varmaps h v) else contents varmaps h w) ∧
    funcmaps h' = funcmaps h ∧ documents h' = documents h.
Proof.
  intros Hv Hnil. destruct v as [l|]; [|done]. destruct Hv as [c Hc].
  eexists. split; [by apply Variables_Set_run|]. split; [|done].
  intros w Hw. split.
  - by apply (valid_map_update varmaps with_varmaps varmaps_with).
  - rewrite (contents_update varmaps with_varmaps varmaps_with).
    by rewrite (contents_live varmaps h l c Hc).
Qed.

(** Unlike the document, the variable and function sets given to
    [NewContext] are not copied: the context reads what the caller's sets
    hold, and an entry the caller sets afterwards is seen through the
    context. *)
Theorem NewContext_shares_sets (h : Heap) (d : Document) (vs : Variables)
    (fs : Functions) (k : Coalescer) :
  valid_map varmaps h vs → valid_map funcmaps h fs →
  vs ≠ nil_ref → fs ≠ nil_ref →
  ∃ c h1, NewContext d vs fs k h = Ok c h1 ∧
    (∀ n, ∃ r, Context_GetVariable c n h1 = Ok r h1 ∧ Variables_Get vs n h = Ok r h) ∧
    (∀ n, ∃ r, Context_GetFunction c n h1 = Ok r h1 ∧ Functions_Get fs n h = Ok r h) ∧
    (∀ n x, ∃ h2, Variables_Set vs n x h1 = Ok vs h2 ∧
       Context_GetVariable c n h2 = Ok (x, true) h2) ∧
    (∀ n fn, ∃ h2, Functions_Set fs n fn h1 = Ok fs h2 ∧
       Context_GetFunction c n h2 = Ok (fn, true) h2).
Proof.
  intros Hvs Hfs Hvnil Hfnil.
  destruct (NewContext_run d vs fs k h) as (c & h1 & Hrun & _ & _ & _ & Hv & Hf).
  rewrite decide_False in Hv by done. rewrite decide_False in Hf by done.
  destruct Hv as [Hv Hvm], Hf as [Hf Hfm].
  pose proof (valid_map_same varmaps h h1 vs Hvm Hvs) as Hvs1.
  pose proof (valid_map_same funcmaps h h1 fs Hfm Hfs) as Hfs1.
  exists c, h1. split; [done|]. unfold Context_GetVariable, Context_GetFunction.
  rewrite Hv, Hf. split; [|split; [|split]].
  - intros n. apply Variables_Get_same; [done..|]. by rewrite (contents_same varmaps h h1).
  - intros n. apply Functions_Get_same; [done..|]. by rewrite (contents_same funcmaps h h1).
  - intros n x. destruct vs as [l|]; [|done]. destruct Hvs1 as [c1 Hc1].
    destruct (Variables_Set_Get h1 l c1 n x Hc1) as (h2 & Hset & Hget).
    exists h2. split; [done|]. by rewrite Hget, lookup_result_insert_eq.
  - intros n fn. destruct fs as [l|]; [|done]. destruct Hfs1 as [c1 Hc1].
    destruct (Functions_Set_Get h1 l c1 n fn Hc1) as (h2 & Hset & Hget).
    exists h2. split; [done|]. by rewrite Hget, lookup_result_insert_eq.
Qed.

(** The variables of a derived context are a copy that is never nil: an
    entry set on the derived context's variables afterwards is not seen
    through the context it came from, and an entry set on the original's
    variables afterwards is not seen through the derived one. *)
Theorem Context_WithVariable_isolates (h : Heap) (c : Context) (n : string) (v : any) :
  valid_Context h c →
  ∃ d h1, Context_WithVariable c n v h = Ok d h1 ∧
    variables d ≠ nil_ref ∧
    (∀ m y, ∃ h2, Variables_Set (variables d) m y h1 = Ok (variables d) h2 ∧
       ∀ k, ∃ r, Context_GetVariable c k h2 = Ok r h2 ∧
                 Context_GetVariable c k h = Ok r h) ∧
    (∀ m y, variables c ≠ nil_ref →
       ∃ h2, Variables_Set (variables c) m y h1 = Ok (variables c) h2 ∧
         ∀ k, ∃ r, Context_GetVariable d k h2 = Ok r h2 ∧
                   Context_GetVariable d k h1 = Ok r h1).
Proof.
  intros [Hv Hf].
  destruct (Variables_With_spec h _ n v Hv) as (l & h1 & Hrun & Hl & Hvm & _ & _).
  exists (mkContext (document c) (funcs c) (Some l) (coalescer c)), h1.
  split; [by unfold Context_WithVariable, bind; rewrite Hrun|]. simpl.
  pose proof (valid_map_extend_new varmaps h h1 l _ Hvm) as Hw.
  pose proof (valid_map_extend varmaps h h1 l _ Hl Hvm _ Hv) as Hv1.
  pose proof (contents_extend varmaps h h1 l _ Hl Hvm _ Hv) as Hcv.
  assert (Hne : variables c ≠ Some l).
  { intros E. rewrite E in Hv. destruct Hv as [c0 Hc0]. congruence. }
  unfold Context_GetVariable; simpl. split; [done|]. split.
  - intros m y.
    destruct (Variables_Set_spec h1 (Some l) m y Hw) as (h2 & Hset & Hall & _); [done|].
    exists h2. split; [done|]. intros k0.
    destruct (Hall _ Hv1) as [Hv2 Hc2]. rewrite decide_False in Hc2 by done.
    apply Variables_Get_same; [done..|]. by rewrite Hc2, Hcv.
  - intros m y Hnil.
    destruct (Variables_Set_spec h1 (variables c) m y Hv1 Hnil) as (h2 & Hset & Hall & _).
    exists h2. split; [done|]. intros k0.
    destruct (Hall _ Hw) as [Hw2 Hc2]. rewrite decide_False in Hc2 by done.
    apply Variables_Get_same; [done..|]. by rewrite Hc2.
Qed.

(** The function registry is shared, not copied, by derived contexts: a
    function registered on the original's registry after the derivation
    is found through the derived context. *)
Theorem Context_WithVariable_shares_functions (h : Heap) (c : Context) (n : string)
    (v : any) (k : Coalescer) (m : string) (fn : Function) :
  valid_Context h c → funcs c ≠ nil_ref →
  ∃ d h1 h2, Context_WithVariable c n v h = Ok d h1 ∧
    Functions_Set (funcs c) m fn h1 = Ok (funcs c) h2 ∧
    Context_GetFunction d m h2 = Ok (fn, true) h2 ∧
    Context_GetFunction (Context_WithCoalescer c k) m h2 = Ok (fn, true) h2.
Proof.
  intros [Hv Hf] Hnil.
  destruct (Variables_With_spec h _ n v Hv) as (l & h1 & Hrun & _ & _ & _ & Hfm).
  pose proof (valid_map_same funcmaps h h1 _ Hfm Hf) as Hf1.
  destruct (funcs c) as [lf|] eqn:Efuncs; [|done]. destruct Hf1 as [c1 Hc1].
  destruct (Functions_Set_Get h1 lf c1 m fn Hc1) as (h2 & Hset & Hget).
  exists (mkContext (document c) (Some lf) (Some l) (coalescer c)), h1, h2.
  split; [by unfold Context_WithVariable, bind; rewrite Hrun, Efuncs|].
  split; [done|]. unfold Context_GetFunction; simpl.
  rewrite Efuncs, Hget, lookup_result_insert_eq. done.
Qed.

(** ** Chains of derivations *)

Lemma derive_run steps : ∀ h c,
  valid_Context h c →
  ∃ d h', derive c steps h = Ok d h' ∧
    document d = document c ∧ funcs d = funcs c ∧
    coalescer d = final_coalescer (coalescer c) steps ∧
    valid_Context h' d ∧
    (∀ m, contents varmaps h' (variables d) !! m =
            match last_binding steps m with
            | Some x => Some x
            | None => contents varmaps h (variables c) !! m
            end) ∧
    (∀ w, valid_map varmaps h w →
       valid_map varmaps h' w ∧ contents varmaps h' w = contents varmaps h w) ∧
    funcmaps h' = funcmaps h ∧ documents h' = documents h.
Proof.
  induction steps as [|s steps IH]; intros h c Hc.
  - exists c, h. destruct Hc as [Hv Hf]. repeat split; try done.
  - destruct s as [n v|k]; cbn [derive derive_step]; unfold bind.
    + destruct Hc as [Hv Hf].
      destruct (Variables_With_spec h _ n v Hv) as (l & h1 & Hrun & Hl & Hvm & Hdocs & Hfm).
      unfold Context_WithVariable, bind. rewrite Hrun. unfold ret at 1.
      set (c1 := mkContext (document c) (funcs c) (Some l) (coalescer c)).
      assert (Hc1 : valid_Context h1 c1).
      { split; simpl.
        - rewrite Hvm, lookup_insert_eq. by eexists.
        - by apply (valid_map_same funcmaps h h1). }
      destruct (IH h1 c1 Hc1)
        as (d & h' & Hder & Hd & Hfs & Hk & Hvd & Hlook & Hold & Hfm' & Hdocs').
      exists d, h'. split; [done|]. split; [done|]. split; [done|]. split; [done|].
      split; [done|]. split; [|split; [|split]].
      * intros m. rewrite Hlook. cbn [last_binding].
        destruct (last_binding steps m); [done|].
        simpl. rewrite Hvm, lookup_insert_eq. simpl. rewrite lookup_insert.
        by case_decide.
      * intros w Hw.
        destruct (Hold w (valid_map_extend varmaps h h1 l _ Hl Hvm w Hw)) as [Hw' Hcw].
        split; [done|]. by rewrite Hcw, (contents_extend varmaps h h1 l _ Hl Hvm).
      * congruence.
      * congruence.
    + unfold ret at 1.
      destruct (IH h (Context_WithCoalescer c k) Hc)
        as (d & h' & Hder & Hd & Hfs & Hk & Hvd & Hlook & Hold & Hfm' & Hdocs').
      exists d, h'. split; [done|]. split; [done|]. split; [done|]. split; [done|].
      split; [done|]. split; [|done].
      intros m. rewrite Hlook. cbn [last_binding]. by destruct (last_binding steps m).
Qed.

(** Along any chain of [WithVariable] and [WithCoalescer] steps, which
    never fails, the document handle and the functions stay those of the
    first context; the coalescer is the one the last [WithCoalescer] step
    gave (nil included: only [NewContext] replaces nil by strict); a
    variable reads as the last [WithVariable] step for its name bound it,
    or as in the first context; and the first context reads as before. *)
Theorem derive_invariants (h : Heap) (c : Context) (steps : list derivation) :
  valid_Context h c →
  ∃ d h', derive c steps h = Ok d h' ∧
    Context_GetDocument d = Context_GetDocument c ∧
    Context_Coalesce d = final_coalescer (Context_Coalesce c) steps ∧
    (∀ m, ∃ r, Context_GetFunction d m h' = Ok r h' ∧
               Context_GetFunction c m h = Ok r h) ∧
    (∀ m, ∃ r, Context_GetVariable d m h' = Ok r h' ∧
               match last_binding steps m with
               | Some x => r = (x, true)
               | None => Context_GetVariable c m h = Ok r h
               end) ∧
    (∀ m, ∃ r, Context_GetVariable c m h' = Ok r h' ∧
               Context_GetVariable c m h = Ok r h) ∧
    documents h' = documents h.
Proof.
  intros Hc.
  destruct (derive_run steps h c Hc)
    as (d & h' & Hder & Hd & Hfs & Hk & [Hvd Hfd] & Hlook & Hold & Hfm & Hdocs).
  destruct Hc as [Hv Hf].
  exists d, h'. split; [done|]. split; [done|]. split; [done|].
  unfold Context_GetFunction, Context_GetVariable. split; [|split; [|split]].
  - intros m. rewrite Hfs. apply Functions_Get_same; [done| |].
    + by apply (valid_map_same funcmaps h h').
    + by rewrite (contents_same funcmaps h h').
  - intros m. eexists. rewrite Variables_Get_run by done. split; [done|].
    unfold lookup_result. rewrite Hlook.
    destruct (last_binding steps m); [done|]. by rewrite Variables_Get_run.
  - intros m. destruct (Hold _ Hv) as [Hv' Hcv].
    apply Variables_Get_same; [done..|]. by rewrite Hcv.
  - done.
Qed.

(** No operation through a context reached from [NewContext] by any chain
    of derivations panics: variable and function lookups return, the
    document handle is not nil and holds the data the context was made
    with, and [Set] on it succeeds. *)
Theorem derived_context_is_safe (h : Heap) (doc : Document) (vs : Variables)
    (fs : Functions) (k : Coalescer) (steps : list derivation) :
  valid_map varmaps h vs → valid_map funcmaps h fs →
  ∃ c h1 d h2, NewContext doc vs fs k h = Ok c h1 ∧
    derive c steps h1 = Ok d h2 ∧
    (∀ n, ∃ r, Context_GetVariable d n h2 = Ok r h2) ∧
    (∀ n, ∃ r, Context_GetFunction d n h2 = Ok r h2) ∧
    Context_GetDocument d ≠ nil_ref ∧
    Document_Data (Context_GetDocument d) h2 = Ok (data doc) h2 ∧
    (∀ x, ∃ h3, Document_Set (Context_GetDocument d) x h2 = Ok tt h3 ∧
       Document_Data (Context_GetDocument c) h3 = Ok x h3).
Proof.
  intros Hvs Hfs.
  destruct (NewContext_run doc vs fs k h) as (c & h1 & Hrun & Hdoc & Hdocs1 & _).
  destruct (NewContext_valid doc vs fs k h Hvs Hfs) as (c' & h1' & Hrun' & Hc & _).
  rewrite Hrun in Hrun'. injection Hrun' as <- <-.
  destruct (derive_run steps h1 c Hc)
    as (d & h2 & Hder & Hd & _ & _ & [Hvd Hfd] & _ & _ & _ & Hdocs2).
  exists c, h1, d, h2. split; [done|]. split; [done|].
  unfold Context_GetVariable, Context_GetFunction, Context_GetDocument.
  rewrite Hd, Hdoc.
  assert (Hl : documents h2 !! fresh (dom (documents h)) = Some doc)
    by (rewrite Hdocs2, Hdocs1; apply lookup_insert_eq).
  split; [|split; [|split; [|split]]].
  - intros n. eexists. by apply Variables_Get_run.
  - intros n. eexists. by apply Functions_Get_run.
  - done.
  - by apply Document_Data_run.
  - intros x. destruct (Document_Set_Data h2 _ x (mk_is_Some _ _ Hl)) as (h3 & HS & HD & _).
    by exists h3.
Qed.

(** ** Chains of Set *)

Lemma foldl_insert_entry_lookup (entries : list (string * any)) : ∀ c n,
  foldl insert_entry c entries !! n =
    match last_value entries n with
    | Some x => Some x
    | None => c !! n
    end.
Proof.
  induction entries as [|e entries IH]; intros c n; [done|].
  simpl. rewrite IH. destruct (last_value entries n); [done|].
  unfold insert_entry. rewrite lookup_insert. by case_decide.
Qed.

Lemma Set_all_run entries : ∀ h l c,
  varmaps h !! l = Some c →
  Set_all (Some l) entries h =
    Ok (Some l) (with_varmaps (<[l := foldl insert_entry c entries]> (varmaps h)) h).
Proof.
  induction entries as [|e entries IH]; intros h l c Hc; simpl.
  - unfold ret. by rewrite insert_id, with_varmaps_id.
  - unfold bind. rewrite (Variables_Set_run h l c) by done.
    rewrite (IH _ l (<[e.1 := e.2]> c)) by (rewrite varmaps_with; apply lookup_insert_eq).
    by rewrite varmaps_with, insert_insert_eq, with_varmaps_with.
Qed.

(** A fluent chain of [Set] calls on a variable set that is not nil
    succeeds and returns the set: a name reads as the last [Set] for it
    gave, or as before when the chain has none.  On the nil set a chain
    that is not empty panics. *)
Theorem Set_all_last_wins (h : Heap) (v : Variables) (entries : list (string * any)) :
  valid_map varmaps h v →
  (v ≠ nil_ref →
     ∃ h', Set_all v entries h = Ok v h' ∧
       ∀ n, ∃ r, Variables_Get v n h' = Ok r h' ∧
                 match last_value entries n with
                 | Some x => r = (x, true)
                 | None => Variables_Get v n h = Ok r h
                 end) ∧
  (v = nil_ref → entries ≠ [] → Set_all v entries h = Panic NilMapAssignment).
Proof.
  intros Hv. split.
  - intros Hnil. destruct v as [l|]; [|done]. destruct Hv as [c Hc].
    eexists. split; [by apply Set_all_run|]. intros n. eexists.
    rewrite Variables_Get_run by (simpl; rewrite lookup_insert_eq; eauto).
    split; [done|]. simpl. rewrite lookup_insert_eq. simpl.
    unfold lookup_result. rewrite foldl_insert_entry_lookup.
    destruct (last_value entries n); [done|].
    rewrite Variables_Get_run by (simpl; eauto). simpl. by rewrite Hc.
  - intros -> Hne. by destruct entries.
Qed.

(** The chain [NewVariables().Set(..).Set(..)] of the embedding API never
    fails: it yields a set that is not nil, binds every name of the chain
    to the value set last for it, and binds nothing else. *)
Theorem NewVariables_Set_all (h : Heap) (entries : list (string * any)) :
  ∃ v h', (v <- NewVariables ;; Set_all v entries) h = Ok v h' ∧
    v ≠ nil_ref ∧
    ∀ n, Variables_Get v n h' =
           Ok (match last_value entries n with
               | Some x => (x, true)
               | None => (nil_any, false)
               end) h'.
Proof.
  unfold bind, NewVariables, make_map.
  set (l := fresh (dom (varmaps h))).
  erewrite (Set_all_run entries _ l ∅) by (rewrite varmaps_with; apply lookup_insert_eq).
  eexists _, _. split; [done|]. split; [done|]. intros n.
  rewrite Variables_Get_run by (simpl; rewrite lookup_insert_eq; eauto).
  simpl. rewrite lookup_insert_eq. simpl. unfold lookup_result.
  rewrite foldl_insert_entry_lookup.
  by destruct (last_value entries n).
Qed.

(** ** The further theorems at the sample store *)

Lemma sample_Context_valid : valid_Context sample_heap sample_Context.
Proof. split; [exact sample_variables_valid | apply sample_functions_valid; by left]. Qed.

Lemma sample_sha1_unbound :
  Functions_Get (Some 1%positive) "sha1" sample_heap = Ok (nil_Function, false) sample_heap.
Proof. reflexivity. Qed.

(** Registering ["sha1"] in the first sample registry. *)
Lemma Functions_Set_then_Get_sample :
  valid_map funcmaps sample_heap (Some 1%positive) ∧
  ∃ h', Functions_Set (Some 1%positive) "sha1"
          (BasicFunction (func "sha1Function") "SHA-1 hash") sample_heap
          = Ok (Some 1%positive) h' ∧
    Functions_Get (Some 1%positive) "sha1" h'
      = Ok (BasicFunction (func "sha1Function") "SHA-1 hash", true) h'.
Proof.
  assert (Hf : valid_map funcmaps sample_heap (Some 1%positive))
    by (apply sample_functions_valid; by left).
  split; [exact Hf|].
  destruct (Functions_Set_then_Get sample_heap (Some 1%positive) "sha1"
              (BasicFunction (func "sha1Function") "SHA-1 hash") Hf) as [_ Hset].
  destruct Hset as (h' & Hrun & Hget & _); [discriminate|].
  exists h'. split; assumption.
Defined.

(** Deleting ["len"] from the first sample registry. *)
Lemma Functions_Delete_unbinds_sample :
  valid_map funcmaps sample_heap (Some 1%positive) ∧
  ∃ h', Functions_Delete (Some 1%positive) "len" sample_heap = Ok (Some 1%positive) h' ∧
    Functions_Get (Some 1%positive) "len" h' = Ok (nil_Function, false) h'.
Proof.
  assert (Hf : valid_map funcmaps sample_heap (Some 1%positive))
    by (apply sample_functions_valid; by left).
  split; [exact Hf|].
  destruct (Functions_Delete_unbinds sample_heap (Some 1%positive) "len" Hf)
    as (h' & Hrun & Hget & _).
  exists h'. split; assumption.
Defined.

(** Registering and deleting ["sha1"] in the first sample registry. *)
Lemma Functions_Set_Delete_round_trip_sample :
  Functions_Get (Some 1%positive) "sha1" sample_heap
    = Ok (nil_Function, false) sample_heap ∧
  ∃ h1, Functions_Set (Some 1%positive) "sha1" nil_Function sample_heap
          = Ok (Some 1%positive) h1 ∧
    Functions_Delete (Some 1%positive) "sha1" h1 = Ok (Some 1%positive) sample_heap.
Proof.
  split; [exact sample_sha1_unbound|].
  apply Functions_Set_Delete_round_trip.
  - apply sample_functions_valid; by left.
  - discriminate.
  - exact sample_sha1_unbound.
Defined.

(** Removing the second sample registry from the first. *)
Lemma Functions_Remove_difference_sample :
  valid_map funcmaps sample_heap (Some 1%positive) ∧
  valid_map funcmaps sample_heap (Some 2%positive) ∧
  ∃ h', Functions_Remove (Some 1%positive) (Some 2%positive) sample_heap
          = Ok (Some 1%positive) h' ∧
    ∀ n, ∃ rf rg,
      Functions_Get (Some 1%positive) n sample_heap = Ok rf sample_heap ∧
      Functions_Get (Some 2%positive) n sample_heap = Ok rg sample_heap ∧
      Functions_Get (Some 1%positive) n h'
        = Ok (if rg.2 then (nil_Function, false) else rf) h'.
Proof.
  assert (Hf : valid_map funcmaps sample_heap (Some 1%positive))
    by (apply sample_functions_valid; by left).
  assert (Hg : valid_map funcmaps sample_heap (Some 2%positive))
    by (apply sample_functions_valid; by right).
  split; [exact Hf|]. split; [exact Hg|].
  destruct (Functions_Remove_difference sample_heap _ _ Hf Hg) as (h' & Hrun & Hget & _).
  exists h'. split; assumption.
Defined.

(** Adding the second sample registry to the first and removing it. *)
Lemma Functions_Add_then_Remove_sample :
  valid_map funcmaps sample_heap (Some 1%positive) ∧
  valid_map funcmaps sample_heap (Some 2%positive) ∧
  ∃ h', (f' <- Functions_Add (Some 1%positive) (Some 2%positive) ;;
         Functions_Remove f' (Some 2%positive)) sample_heap = Ok (Some 1%positive) h' ∧
    ∀ n, ∃ rf rg,
      Functions_Get (Some 1%positive) n sample_heap = Ok rf sample_heap ∧
      Functions_Get (Some 2%positive) n sample_heap = Ok rg sample_heap ∧
      Functions_Get (Some 1%positive) n h'
        = Ok (if rg.2 then (nil_Function, false) else rf) h'.
Proof.
  assert (Hf : valid_map funcmaps sample_heap (Some 1%positive))
    by (apply sample_functions_valid; by left).
  assert (Hg : valid_map funcmaps sample_heap (Some 2%positive))
    by (apply sample_functions_valid; by right).
  split; [exact Hf|]. split; [exact Hg|].
  destruct (Functions_Add_then_Remove sample_heap (Some 1%positive) (Some 2%positive)
              Hf Hg) as (h' & Hrun & Hget & _); [discriminate|].
  exists h'. split; assumption.
Defined.

(** Copying the first sample registry. *)
Lemma Functions_DeepCopy_independent_sample :
  valid_map funcmaps sample_heap (Some 1%positive) ∧
  ∃ g h', Functions_DeepCopy (Some 1%positive) sample_heap = Ok g h' ∧
    g ≠ nil_ref ∧
    ∀ n, ∃ r, Functions_Get g n h' = Ok r h' ∧
              Functions_Get (Some 1%positive) n sample_heap = Ok r sample_heap.
Proof.
  assert (Hf : valid_map funcmaps sample_heap (Some 1%positive))
    by (apply sample_functions_valid; by left).
  split; [exact Hf|].
  destruct (Functions_DeepCopy_independent sample_heap _ Hf)
    as (g & h' & Hrun & Hnil & _ & Hget & _).
  exists g, h'. repeat split; assumption.
Defined.

(** Copying the sample variables. *)
Lemma Variables_DeepCopy_independent_sample :
  valid_map varmaps sample_heap (Some 1%positive) ∧
  ∃ w h', Variables_DeepCopy (Some 1%positive) sample_heap = Ok w h' ∧
    w ≠ nil_ref ∧
    ∀ n, ∃ r, Variables_Get w n h' = Ok r h' ∧
              Variables_Get (Some 1%positive) n sample_heap = Ok r sample_heap.
Proof.
  split; [exact sample_variables_valid|].
  destruct (Variables_DeepCopy_independent sample_heap _ sample_variables_valid)
    as (w & h' & Hrun & Hnil & _ & Hget & _).
  exists w, h'. repeat split; assumption.
Defined.

(** Adding the second sample registry to the first, twice. *)
Lemma Functions_Add_frame_idempotent_sample :
  valid_map funcmaps sample_heap (Some 1%positive) ∧
  valid_map funcmaps sample_heap (Some 2%positive) ∧
  ∃ h', Functions_Add (Some 1%positive) (Some 2%positive) sample_heap
          = Ok (Some 1%positive) h' ∧
    Functions_Add (Some 1%positive) (Some 2%positive) h' = Ok (Some 1%positive) h'.
Proof.
  assert (Hf : valid_map funcmaps sample_heap (Some 1%positive))
    by (apply sample_functions_valid; by left).
  assert (Hg : valid_map funcmaps sample_heap (Some 2%positive))
    by (apply sample_functions_valid; by right).
  split; [exact Hf|]. split; [exact Hg|].
  destruct (Functions_Add_frame_idempotent sample_heap (Some 1%positive) (Some 2%positive)
              Hf Hg) as (h' & Hrun & _ & _ & _ & Hagain & _); [discriminate|].
  exists h'. split; assumption.
Defined.

(** Adding the entries of the second sample registry in reverse order. *)
Lemma Functions_Add_any_order_sample :
  (for_each (reverse (map_to_list (contents funcmaps sample_heap (Some 2%positive))))
     (λ e, map_assign funcmaps with_funcmaps (Some 1%positive) e.1 e.2) ;;;
   ret (Some 1%positive)) sample_heap
  = Functions_Add (Some 1%positive) (Some 2%positive) sample_heap.
Proof.
  apply Functions_Add_any_order.
  - apply sample_functions_valid; by left.
  - apply sample_functions_valid; by right.
  - apply reverse_Permutation.
Defined.

(** The chain of built-ins over the two sample registries, the other
    packages being nil. *)
Lemma builtin_Functions_last_wins_sample :
  ∃ f h', builtin_Functions (Some 1%positive) nil_ref nil_ref nil_ref nil_ref
            (Some 2%positive) nil_ref nil_ref nil_ref nil_ref nil_ref sample_heap
            = Ok f h' ∧
    f ≠ nil_ref.
Proof.
  assert (Hall : Forall (valid_map funcmaps sample_heap)
            [Some 1%positive; nil_ref; nil_ref; nil_ref; nil_ref; Some 2%positive;
             nil_ref; nil_ref; nil_ref; nil_ref; nil_ref]).
  { repeat apply Forall_cons_2; try apply Forall_nil_2; try exact I.
    - apply sample_functions_valid; by left.
    - apply sample_functions_valid; by right. }
  destruct (builtin_Functions_last_wins sample_heap _ _ _ _ _ _ _ _ _ _ _ Hall)
    as (f & h' & Hrun & Hnil & _).
  exists f, h'. split; assumption.
Defined.

(** A context made over the sample variables and the first sample
    registry. *)
Lemma NewContext_shares_sets_sample :
  ∃ c h1, NewContext (mkDocument nil_any) (Some 1%positive) (Some 1%positive) Humane
            sample_heap = Ok c h1 ∧
    ∀ n x, ∃ h2, Variables_Set (Some 1%positive) n x h1 = Ok (Some 1%positive) h2 ∧
      Context_GetVariable c n h2 = Ok (x, true) h2.
Proof.
  destruct (NewContext_shares_sets sample_heap (mkDocument nil_any) (Some 1%positive)
              (Some 1%positive) Humane) as (c & h1 & Hrun & _ & _ & Hset & _).
  - exact sample_variables_valid.
  - apply sample_functions_valid; by left.
  - discriminate.
  - discriminate.
  - exists c, h1. split; assumption.
Defined.

(** Deriving from the sample context, then setting a variable on the
    copy. *)
Lemma Context_WithVariable_isolates_sample :
  valid_Context sample_heap sample_Context ∧
  ∃ d h1, Context_WithVariable sample_Context "x" (Int64 1) sample_heap = Ok d h1 ∧
    variables d ≠ nil_ref.
Proof.
  split; [exact sample_Context_valid|].
  destruct (Context_WithVariable_isolates sample_heap sample_Context "x" (Int64 1)
              sample_Context_valid) as (d & h1 & Hrun & Hnil & _).
  exists d, h1. split; assumption.
Defined.

(** Registering a function after deriving from the sample context. *)
Lemma Context_WithVariable_shares_functions_sample :
  valid_Context sample_heap sample_Context ∧
  ∃ d h1 h2, Context_WithVariable sample_Context "x" (Int64 1) sample_heap = Ok d h1 ∧
    Functions_Set (funcs sample_Context) "sha1" nil_Function h1
      = Ok (funcs sample_Context) h2 ∧
    Context_GetFunction d "sha1" h2 = Ok (nil_Function, true) h2.
Proof.
  split; [exact sample_Context_valid|].
  destruct (Context_WithVariable_shares_functions sample_heap sample_Context "x" (Int64 1)
              Humane "sha1" nil_Function sample_Context_valid)
    as (d & h1 & h2 & Hrun & Hset & Hget & _); [discriminate|].
  exists d, h1, h2. repeat split; assumption.
Defined.

(** A chain of three derivations from the sample context. *)
Lemma derive_invariants_sample :
  valid_Context sample_heap sample_Context ∧
  ∃ d h', derive sample_Context
            [by_WithVariable "x" (Int64 1); by_WithCoalescer Humane;
             by_WithVariable "x" (Int64 2)] sample_heap = Ok d h' ∧
    Context_GetDocument d = Context_GetDocument sample_Context ∧
    Context_Coalesce d = Humane.
Proof.
  split; [exact sample_Context_valid|].
  destruct (derive_invariants sample_heap sample_Context
              [by_WithVariable "x" (Int64 1); by_WithCoalescer Humane;
               by_WithVariable "x" (Int64 2)] sample_Context_valid)
    as (d & h' & Hrun & Hdoc & Hk & _).
  exists d, h'. repeat split; assumption.
Defined.

(** A context made over the sample sets, then derived from. *)
Lemma derived_context_is_safe_sample :
  ∃ c h1 d h2,
    NewContext (mkDocument (Int64 7)) (Some 1%positive) nil_ref nil_Coalescer sample_heap
      = Ok c h1 ∧
    derive c [by_WithVariable "x" (Int64 1)] h1 = Ok d h2 ∧
    Document_Data (Context_GetDocument d) h2 = Ok (Int64 7) h2.
Proof.
  destruct (derived_context_is_safe sample_heap (mkDocument (Int64 7)) (Some 1%positive)
              nil_ref nil_Coalescer [by_WithVariable "x" (Int64 1)]
              sample_variables_valid I)
    as (c & h1 & d & h2 & Hrun & Hder & _ & _ & _ & Hdata & _).
  exists c, h1, d, h2. repeat split; assumption.
Defined.

(** Two [Set] calls on the sample variables. *)
Lemma Set_all_last_wins_sample :
  valid_map varmaps sample_heap (Some 1%positive) ∧
  ∃ h', Set_all (Some 1%positive) [("myvar", Int64 1); ("myvar", Int64 2)] sample_heap
          = Ok (Some 1%positive) h'.
Proof.
  split; [exact sample_variables_valid|].
  destruct (Set_all_last_wins sample_heap (Some 1%positive)
              [("myvar", Int64 1); ("myvar", Int64 2)] sample_variables_valid)
    as [Hset _].
  destruct Hset as (h' & Hrun & _); [discriminate|].
  by exists h'.
Defined.
